(** * bw: bandwidth meter (cmd/bw.go)

    A shallow embedding of the read/count/report pipeline of [bw]:

    - the unit scaler [reducer] / [getUnits];
    - the stream reader [ReadData] on top of [io.CopyN];
    - the event handlers of [CalculateBandwidth];
    - the goroutines started by [main], as an interleaving step function
      driven by a schedule.

    Go's [int64] is a [Z] with its wrap-around written out.  A [float64] is
    the rational it denotes: the only float operations of the scaler are the
    conversion [float64(count)], which is rounded here to 53 significant
    bits, to nearest, ties to even, and the comparison with and division by
    1024, which binary64 performs exactly (a division by a power of two
    changes the exponent only, and no quotient of a value >= 1024 is
    subnormal). *)

From Equations Require Import Equations.
From Stdlib Require Import ZArith QArith Qround Qabs List String Bool Lia.
From Stdlib Require Import Floats Uint63.
Import ListNotations.
Open Scope Z_scope.

(** ** Machine integers *)

Module Int64.

Definition min_int : Z := - 2 ^ 63.
Definition max_int : Z := 2 ^ 63 - 1.

Definition in_range (z : Z) : Prop := min_int <= z <= max_int.

(** Two's-complement wrap-around of Go's signed 64-bit arithmetic. *)
Definition wrap (z : Z) : Z := (z + 2 ^ 63) mod 2 ^ 64 - 2 ^ 63.

Definition add (x y : Z) : Z := wrap (x + y).
Definition mul (x y : Z) : Z := wrap (x * y).

End Int64.

(** ** float64(int64): rounding to a 53-bit significand *)

Module Float64.

(** The integer denoted by [float64(c)]: exact below 2^53; above, the low
    [sh] bits are rounded away, to nearest, ties to the even significand. *)
Definition round53 (c : Z) : Z :=
  let a := Z.abs c in
  if a <? 2 ^ 53 then c
  else
    let sh := Z.log2 a - 52 in
    let p := 2 ^ sh in
    let q := a / p in
    let r := a mod p in
    let q' := if 2 * r <? p then q
              else if p <? 2 * r then q + 1
              else if Z.even q then q else q + 1 in
    Z.sgn c * (q' * p).

Definition of_int64 (c : Z) : Q := inject_Z (round53 c).

End Float64.

(** ** Unit scaler (bw.go:17-37, 209-231) *)

Definition nextStep : Z := 1024.

Record unit := mkUnit { count : Q; desc : string }.

Definition descs : list string :=
  ["B"; "KB"; "MB"; "GB"; "TB"; "PB"]%string.

(** Termination measure of [reducer]: the bit length of the integer part. *)
Definition reducer_measure (x : Q) : nat := Z.to_nat (Z.log2 (Qfloor x)).

(** [reducer]: [descs[descIdx]] is Go's checked indexing; [None] is the
    run-time panic "index out of range".  [descIdx] starts at 0 and is only
    incremented, so a natural number stands for Go's [int]. *)
Equations? reducer (remCount : Q) (descIdx : nat) : option unit
  by wf (reducer_measure remCount) lt :=
  reducer remCount descIdx with Qlt_le_dec remCount (inject_Z nextStep) => {
    | left _ => option_map (mkUnit remCount) (nth_error descs descIdx)
    | right _ => reducer (remCount / inject_Z nextStep) (S descIdx) }.
Proof.
  assert (H : (inject_Z nextStep <= remCount)%Q) by assumption.
  unfold reducer_measure.
  set (F := Qfloor remCount).
  set (G := Qfloor (remCount / inject_Z nextStep)).
  assert (HF : 1024 <= F).
  { change 1024 with (Qfloor (inject_Z nextStep)).
    apply Qfloor_resp_le. exact H. }
  assert (HG : 2 * G <= F).
  { assert (H1 : (inject_Z G <= remCount / inject_Z nextStep)%Q)
      by apply Qfloor_le.
    assert (H2 : (remCount < inject_Z (F + 1))%Q) by apply Qlt_floor.
    apply (Qmult_le_compat_r _ _ (inject_Z nextStep)) in H1; [|discriminate].
    rewrite (Qmult_comm (remCount / _)), Qmult_div_r in H1 by discriminate.
    rewrite <- inject_Z_mult in H1.
    assert (H3 : (inject_Z (G * nextStep) < inject_Z (F + 1))%Q)
      by (eapply Qle_lt_trans; eassumption).
    rewrite <- Zlt_Qlt in H3. unfold nextStep in H3. lia. }
  assert (Z.log2 G < Z.log2 F); [|pose proof (Z.log2_nonneg G); lia].
  destruct (Z_le_gt_dec G 0) as [Hle|Hgt].
  - rewrite (Z.log2_nonpos G) by lia.
    pose proof (Z.log2_le_mono 1024 F HF) as HL.
    change (Z.log2 1024) with 10 in HL. lia.
  - assert (Z.log2 (2 * G) <= Z.log2 F) by (apply Z.log2_le_mono; lia).
    rewrite Z.log2_double in * by lia. lia.
Qed.

Definition getUnits (count : Z) : option unit :=
  reducer (Float64.of_int64 count) 0.

(** [shrink k x]: [x] after [k] passes through the recursive call of
    [reducer], that is [k] successive divisions by [nextStep]. *)
Fixpoint shrink (k : nat) (x : Q) : Q :=
  match k with
  | O => x
  | S k' => shrink k' (x / inject_Z nextStep)
  end.

(** The position of a label in [descs]. *)
Definition label_at (k : nat) (d : string) : Prop := nth_error descs k = Some d.

(** *** The scaler on hardware floats

    The same [reducer], on Rocq's primitive binary64 floats, to check on
    sample counts that the rational model above computes what binary64
    computes.  The fuel bounds the recursion; 64 divisions are never
    needed. *)

Definition binary64_of_int64 (c : Z) : float :=
  if c <? 0 then PrimFloat.opp (PrimFloat.of_uint63 (Uint63.of_Z (- c)))
  else PrimFloat.of_uint63 (Uint63.of_Z c).

(** The rational a finite float denotes. *)
Definition Q_of_binary64 (f : float) : Q :=
  let (m, e) := PrimFloat.frshiftexp f in
  let mant := Uint63.to_Z (PrimFloat.normfr_mantissa m) in
  let ex := Uint63.to_Z e - FloatOps.shift - 53 in
  let mag := if 0 <=? ex then inject_Z (mant * 2 ^ ex)
             else (mant # Z.to_pos (2 ^ (- ex))) in
  if PrimFloat.ltb f PrimFloat.zero then (- mag)%Q else mag.

Fixpoint reducer_binary64 (fuel : nat) (remCount : float) (descIdx : nat)
  : option (option (float * string)) :=
  match fuel with
  | O => None
  | S fuel' =>
      if PrimFloat.ltb remCount (PrimFloat.of_uint63 1024)
      then Some (option_map (pair remCount) (nth_error descs descIdx))
      else reducer_binary64 fuel'
             (PrimFloat.div remCount (PrimFloat.of_uint63 1024)) (S descIdx)
  end.

Definition binary64_agrees (c : Z) : bool :=
  Qeq_bool (Q_of_binary64 (binary64_of_int64 c)) (Float64.of_int64 c) &&
  match reducer_binary64 64 (binary64_of_int64 c) 0, getUnits c with
  | Some (Some (f, d)), Some u =>
      Qeq_bool (Q_of_binary64 f) (count u) && String.eqb d (desc u)
  | Some None, None => true
  | _, _ => false
  end.

Definition binary64_samples : list Z :=
  [0; 1; 1023; 1024; 1025; 3500; 409500; 2 ^ 20 - 1; 2 ^ 20;
   2 ^ 53 - 1; 2 ^ 53; 2 ^ 53 + 1; 2 ^ 53 + 3; 123456789012345678;
   987654321987654321; 2 ^ 60 - 129; 2 ^ 60 - 128; 2 ^ 60 - 65;
   2 ^ 60 - 64; 2 ^ 60 - 63; 2 ^ 60; 2 ^ 62; 2 ^ 63 - 513; 2 ^ 63 - 512;
   2 ^ 63 - 1; -1; -7; -1024; - 2 ^ 53 - 1; - 2 ^ 63 + 1].

(** ** Stream reader (bw.go:145-168) *)

(** What ends a source: [io.EOF], or any other error of the underlying
    reader. *)
Inductive ioerr : Type := EOF | ErrIO.

(** A source hands out its bytes in chunks, one per [Read] that succeeds,
    and then fails with [src_final] on every later [Read]. *)
Record source := mkSource { src_chunks : list N; src_final : ioerr }.

Fixpoint avail (chunks : list N) : Z :=
  match chunks with
  | [] => 0
  | k :: rest => Z.of_N k + avail rest
  end.

(** [io.CopyN(dst, src, n)] of Go's standard library, with the discarding
    sink as [dst]: it reads until [n] bytes have been copied or the source
    fails, across as many chunks as that takes, and returns the number of
    bytes copied, the error, and here also what the source has left.  "On
    return, written == n if and only if err == nil": a source that ends
    early gives [(written, Some fin)] with [written < n]. *)
Fixpoint CopyN (chunks : list N) (fin : ioerr) (n : Z)
  : Z * option ioerr * list N :=
  if n <=? 0 then (0, None, chunks)
  else
    match chunks with
    | [] => (0, Some fin, [])
    | k :: rest =>
        if Z.of_N k <? n then
          let '(w, e, rest') := CopyN rest fin (n - Z.of_N k) in
          (Z.of_N k + w, e, rest')
        else
          (n, None, if Z.of_N k =? n then rest else (k - Z.to_N n)%N :: rest)
    end.

(** bw.go:157-158: the size computed from the hint [r] is overwritten. *)
Definition bufSize (r : Z) : Z :=
  let bufSize := Int64.mul (Int64.mul nextStep nextStep) r in
  let bufSize := 409500 in
  bufSize.

(** What [ReadData] does that the rest of the program can see. *)
Inductive rd_event : Type :=
| Request (bufSize : Z)   (* io.CopyN(rw, rw, bufSize) is called *)
| Send (n : Z).           (* bRead <- n *)

Record rd_result := mkRd {
  rd_trace : list rd_event;
  rd_err : option ioerr;      (* [None] is the nil error *)
  rd_rest : list N }.

Definition rd_cons (evs : list rd_event) (r : rd_result) : rd_result :=
  mkRd (evs ++ rd_trace r) (rd_err r) (rd_rest r).

Definition reader_measure (chunks : list N) : nat :=
  Z.to_nat (avail chunks / 409500).

Definition inspect {A} (a : A) : {b : A | a = b} := exist _ a eq_refl.

(** The loop of [ReadData].  [ctx i] tells whether [ctx.Done()] is closed
    when the [select] of iteration [i] looks at it.  The send [bRead <- n]
    is taken to find its receiver. *)
Equations? ReadData_loop (ctx : nat -> bool) (r : Z) (fin : ioerr)
    (i : nat) (chunks : list N) : rd_result
  by wf (reader_measure chunks) lt :=
  ReadData_loop ctx r fin i chunks with ctx i => {
    | true => mkRd [] None chunks
    | false with inspect (CopyN chunks fin (bufSize r)) => {
        | exist _ (n, Some err, rest) _ =>
            mkRd [Request (bufSize r)] (Some err) rest
        | exist _ (n, None, rest) Heq =>
            rd_cons [Request (bufSize r); Send n]
                    (ReadData_loop ctx r fin (S i) rest) } }.
Proof.
  assert (HC : forall c m w c', 0 < m -> CopyN c fin m = (w, None, c') ->
                                 avail c' = avail c - m).
  { clear. induction c as [|k c IH]; intros m w c' Hm H; simpl in H.
    - destruct (Z.leb_spec m 0); [lia|discriminate].
    - destruct (Z.leb_spec m 0); [lia|].
      destruct (Z.ltb_spec (Z.of_N k) m) as [Hk|Hk].
      + destruct (CopyN c fin (m - Z.of_N k)) as [[w1 e1] r1] eqn:E.
        injection H as <- -> <-. apply IH in E; [|lia].
        cbn [avail]. lia.
      + injection H as <- <-.
        destruct (Z.eqb_spec (Z.of_N k) m); cbn [avail]; [lia|].
        rewrite N2Z.inj_sub, Z2N.id
          by (try apply N2Z.inj_le; rewrite ?Z2N.id; lia).
        lia. }
  apply HC in Heq; [|reflexivity]. change (bufSize r) with 409500 in Heq.
  assert (Hnn : forall c, 0 <= avail c).
  { clear. induction c; cbn [avail]; lia. }
  unfold reader_measure. rewrite Heq.
  pose proof (Hnn rest). pose proof (Hnn chunks).
  replace (avail chunks) with ((avail chunks - 409500) + 1 * 409500) at 2
    by lia.
  rewrite Z.div_add by lia.
  assert (0 <= (avail chunks - 409500) / 409500) by (apply Z.div_pos; lia).
  lia.
Qed.

Definition ReadData (ctx : nat -> bool) (src : source) (r : Z) : rd_result :=
  ReadData_loop ctx r (src_final src) 0 (src_chunks src).

(** The byte counts put on [bRead], in order. *)
Fixpoint sent (t : list rd_event) : list Z :=
  match t with
  | [] => []
  | Send n :: t' => n :: sent t'
  | Request _ :: t' => sent t'
  end.

Fixpoint requests (t : list rd_event) : list Z :=
  match t with
  | [] => []
  | Request b :: t' => b :: requests t'
  | Send _ :: t' => requests t'
  end.

(** An event of the reader that moves a full chunk. *)
Definition chunk_sized (ev : rd_event) : Prop :=
  match ev with
  | Request b => b = 409500
  | Send n => n = 409500
  end.

(** ** Bandwidth aggregator (bw.go:172-207) *)

Record RunState := mkRunState { total : Z; prevSecond : Z }.

(** The arguments of the two [Printf] of a tick, before formatting. *)
Record report := mkReport {
  current : Q; current_desc : string;
  average : Q; average_desc : string }.

(** The arguments of the final [Printf], before formatting. *)
Record summary := mkSummary {
  sum_elapsed : Q; sum_count : Q; sum_desc : string }.

(** bw.go:184-186. *)
Definition onByteCount (n : Z) (s : RunState) : RunState :=
  let total := Int64.add (total s) n in
  let prevSecond := Int64.add (prevSecond s) n in
  mkRunState total prevSecond.

(** bw.go:187-194.  [None]: one of the two [getUnits] panicked.  The
    average is the exact quotient, which Go rounds to a float64. *)
Definition onTick (elapsed : Q) (s : RunState) : option (RunState * report) :=
  match getUnits (prevSecond s) with
  | None => None
  | Some prevDesc =>
      match getUnits (total s) with
      | None => None
      | Some totalDesc =>
          let avg := (count totalDesc / elapsed)%Q in
          Some (mkRunState (total s) 0,
                mkReport (count prevDesc) (desc prevDesc) avg (desc totalDesc))
      end
  end.

(** bw.go:200-205. *)
Definition finalSummary (elapsed : Q) (s : RunState) : option summary :=
  match getUnits (total s) with
  | None => None
  | Some totalDesc => Some (mkSummary elapsed (count totalDesc) (desc totalDesc))
  end.

(** The two cases of the [select] of the inner goroutine. *)
Inductive event : Type :=
| ByteCount (n : Z)
| Tick (elapsed : Q).

(** The inner loop over a sequence of events, in the order the [select]
    takes them; [None] when a tick panics. *)
Fixpoint aggregate (evs : list event) (s : RunState)
  : option (RunState * list report) :=
  match evs with
  | [] => Some (s, [])
  | ByteCount n :: evs' => aggregate evs' (onByteCount n s)
  | Tick elapsed :: evs' =>
      match onTick elapsed s with
      | None => None
      | Some (s', rep) =>
          match aggregate evs' s' with
          | None => None
          | Some (s'', reps) => Some (s'', rep :: reps)
          end
      end
  end.

Fixpoint byteCounts (evs : list event) : list Z :=
  match evs with
  | [] => []
  | ByteCount n :: evs' => n :: byteCounts evs'
  | Tick _ :: evs' => byteCounts evs'
  end.

Definition sum (l : list Z) : Z := fold_right Z.add 0 l.

(** ** The goroutines of [main] (bw.go:110-133)

    Four goroutines run once [app.Run] has returned: [main] itself, which
    then executes [ReadData]; the signal handler of line 121; the body of
    [CalculateBandwidth], started at line 127; and the loop it starts at
    line 181.  Each has a program counter; a schedule says which of them
    moves next, and what the environment does in between. *)

Inductive goroutine : Type := GMain | GSignal | GAggregator | GLoop.

Inductive main_pc : Type :=
| MSelect          (* :153  select { case <-ctx.Done() ... default ... } *)
| MCopy            (* :157  bufSize; io.CopyN; if err != nil *)
| MSend (n : Z)    (* :163  bRead <- int64(n) *)
| MWait            (* :129  <-ctx.Done(), ReadData has returned an error *)
| MExit.           (* :132  os.Exit(0) *)

Inductive sig_pc : Type :=
| SWait            (* :122  <-sigs *)
| SCancel          (* :123  cancel() *)
| SDone.

Inductive agg_pc : Type :=
| AInit                  (* :175-197  declarations, ticker, go func *)
| AWait                  (* :199  <-ctx.Done() *)
| ASummary               (* :200-201  time.Since(start); getUnits(total) *)
| APrint (line : summary)  (* :202  fmt.Printf *)
| ADone.

Inductive loop_pc : Type :=
| LUnborn                (* before the go statement of line 181 *)
| LSelect                (* :183  select over bRead and ticker.C *)
| LAddTotal (n : Z)      (* :185  total += n *)
| LAddPrev (n : Z)       (* :186  prevSecond += n *)
| LTick.                 (* :188-194 *)

Inductive status : Type :=
| Running
| Exited                 (* os.Exit(0) was called *)
| Panicked.              (* a goroutine panicked: index out of range *)

Record state := mkState {
  st_status : status;
  st_main : main_pc;
  st_sig : sig_pc;
  st_agg : agg_pc;
  st_loop : loop_pc;
  st_chunks : list N;           (* what the source has yet to deliver *)
  st_sigs : bool;               (* the channel sigs, of capacity 1 *)
  st_done : bool;               (* ctx.Done() is closed *)
  st_run : RunState;            (* total, prevSecond *)
  st_start : Q;                 (* start *)
  st_clock : Q;                 (* the time, in seconds *)
  st_reports : list report;     (* the lines of the ticks, latest first *)
  st_summary : option summary   (* the final line, once printed *)
}.

Definition set_status (x : status) (s : state) : state :=
  mkState x (st_main s) (st_sig s) (st_agg s) (st_loop s) (st_chunks s)
    (st_sigs s) (st_done s) (st_run s) (st_start s) (st_clock s)
    (st_reports s) (st_summary s).

Definition set_main (x : main_pc) (s : state) : state :=
  mkState (st_status s) x (st_sig s) (st_agg s) (st_loop s) (st_chunks s)
    (st_sigs s) (st_done s) (st_run s) (st_start s) (st_clock s)
    (st_reports s) (st_summary s).

Definition set_sig (x : sig_pc) (s : state) : state :=
  mkState (st_status s) (st_main s) x (st_agg s) (st_loop s) (st_chunks s)
    (st_sigs s) (st_done s) (st_run s) (st_start s) (st_clock s)
    (st_reports s) (st_summary s).

Definition set_agg (x : agg_pc) (s : state) : state :=
  mkState (st_status s) (st_main s) (st_sig s) x (st_loop s) (st_chunks s)
    (st_sigs s) (st_done s) (st_run s) (st_start s) (st_clock s)
    (st_reports s) (st_summary s).

Definition set_loop (x : loop_pc) (s : state) : state :=
  mkState (st_status s) (st_main s) (st_sig s) (st_agg s) x (st_chunks s)
    (st_sigs s) (st_done s) (st_run s) (st_start s) (st_clock s)
    (st_reports s) (st_summary s).

Definition set_chunks (x : list N) (s : state) : state :=
  mkState (st_status s) (st_main s) (st_sig s) (st_agg s) (st_loop s) x
    (st_sigs s) (st_done s) (st_run s) (st_start s) (st_clock s)
    (st_reports s) (st_summary s).

Definition set_sigs (x : bool) (s : state) : state :=
  mkState (st_status s) (st_main s) (st_sig s) (st_agg s) (st_loop s)
    (st_chunks s) x (st_done s) (st_run s) (st_start s) (st_clock s)
    (st_reports s) (st_summary s).

Definition set_done (x : bool) (s : state) : state :=
  mkState (st_status s) (st_main s) (st_sig s) (st_agg s) (st_loop s)
    (st_chunks s) (st_sigs s) x (st_run s) (st_start s) (st_clock s)
    (st_reports s) (st_summary s).

Definition set_run (x : RunState) (s : state) : state :=
  mkState (st_status s) (st_main s) (st_sig s) (st_agg s) (st_loop s)
    (st_chunks s) (st_sigs s) (st_done s) x (st_start s) (st_clock s)
    (st_reports s) (st_summary s).

Definition set_start (x : Q) (s : state) : state :=
  mkState (st_status s) (st_main s) (st_sig s) (st_agg s) (st_loop s)
    (st_chunks s) (st_sigs s) (st_done s) (st_run s) x (st_clock s)
    (st_reports s) (st_summary s).

Definition set_clock (x : Q) (s : state) : state :=
  mkState (st_status s) (st_main s) (st_sig s) (st_agg s) (st_loop s)
    (st_chunks s) (st_sigs s) (st_done s) (st_run s) (st_start s) x
    (st_reports s) (st_summary s).

Definition set_reports (x : list report) (s : state) : state :=
  mkState (st_status s) (st_main s) (st_sig s) (st_agg s) (st_loop s)
    (st_chunks s) (st_sigs s) (st_done s) (st_run s) (st_start s)
    (st_clock s) x (st_summary s).

Definition set_summary (x : option summary) (s : state) : state :=
  mkState (st_status s) (st_main s) (st_sig s) (st_agg s) (st_loop s)
    (st_chunks s) (st_sigs s) (st_done s) (st_run s) (st_start s)
    (st_clock s) (st_reports s) x.

(** What a schedule is made of. *)
Inductive label : Type :=
| Interrupt          (* the system delivers SIGINT or SIGTERM to sigs *)
| Elapse (d : Q)     (* d seconds pass *)
| TickFires          (* ticker.C is ready and the select of :183 takes it *)
| Handoff            (* the send of :163 meets the receive of :184 *)
| Go (g : goroutine).  (* g executes the instruction it is at *)

Definition elapsed (s : state) : Q := (st_clock s - st_start s)%Q.

Section Program.

(** The way the source ends and the chunk-size hint [mb], fixed for a run. *)
Variable fin : ioerr.
Variable mb : Z.

(** [main] from line 128 on, inside [ReadData] until it returns. *)
Definition step_main (s : state) : option state :=
  match st_main s with
  | MSelect =>
      Some (set_main (if st_done s then MExit else MCopy) s)
  | MCopy =>
      let '(n, err, rest) := CopyN (st_chunks s) fin (bufSize mb) in
      Some (set_chunks rest
              (set_main (match err with
                         | Some _ => MWait
                         | None => MSend n
                         end) s))
  | MSend _ => None
  | MWait => if st_done s then Some (set_main MExit s) else None
  | MExit => Some (set_status Exited s)
  end.

Definition step_signal (s : state) : option state :=
  match st_sig s with
  | SWait =>
      if st_sigs s then Some (set_sigs false (set_sig SCancel s)) else None
  | SCancel => Some (set_done true (set_sig SDone s))
  | SDone => None
  end.

Definition step_aggregator (s : state) : option state :=
  match st_agg s with
  | AInit =>
      Some (set_run (mkRunState 0 0)
              (set_start (st_clock s) (set_loop LSelect (set_agg AWait s))))
  | AWait => if st_done s then Some (set_agg ASummary s) else None
  | ASummary =>
      match finalSummary (elapsed s) (st_run s) with
      | Some line => Some (set_agg (APrint line) s)
      | None => Some (set_status Panicked s)
      end
  | APrint line => Some (set_summary (Some line) (set_agg ADone s))
  | ADone => None
  end.

Definition step_loop (s : state) : option state :=
  match st_loop s with
  | LUnborn => None
  | LSelect => None
  | LAddTotal n =>
      let r := st_run s in
      Some (set_run (mkRunState (Int64.add (total r) n) (prevSecond r))
              (set_loop (LAddPrev n) s))
  | LAddPrev n =>
      let r := st_run s in
      Some (set_run (mkRunState (total r) (Int64.add (prevSecond r) n))
              (set_loop LSelect s))
  | LTick =>
      match onTick (elapsed s) (st_run s) with
      | Some (r, rep) =>
          Some (set_reports (rep :: st_reports s)
                  (set_run r (set_loop LSelect s)))
      | None => Some (set_status Panicked s)
      end
  end.

(** One move of the schedule; [None] when the move is not enabled.  Nothing
    moves once the process has exited or panicked. *)
Definition step (s : state) (l : label) : option state :=
  match st_status s with
  | Running =>
      match l with
      | Interrupt => Some (set_sigs true s)
      | Elapse d =>
          if Qle_bool 0 d then Some (set_clock (st_clock s + d)%Q s) else None
      | TickFires =>
          match st_loop s with
          | LSelect => Some (set_loop LTick s)
          | _ => None
          end
      | Handoff =>
          match st_main s, st_loop s with
          | MSend n, LSelect =>
              Some (set_loop (LAddTotal n) (set_main MSelect s))
          | _, _ => None
          end
      | Go GMain => step_main s
      | Go GSignal => step_signal s
      | Go GAggregator => step_aggregator s
      | Go GLoop => step_loop s
      end
  | Exited | Panicked => None
  end.

Fixpoint run (s : state) (sched : list label) : option state :=
  match sched with
  | [] => Some s
  | l :: sched' =>
      match step s l with
      | None => None
      | Some s' => run s' sched'
      end
  end.

End Program.

(** The state in which [main] reaches line 110, on a source that has
    [chunks] to deliver. *)
Definition init (chunks : list N) : state :=
  mkState Running MSelect SWait AInit LUnborn chunks false false
    (mkRunState 0 0) 0 0 [] None.

Definition is_interrupt (l : label) : bool :=
  match l with
  | Interrupt => true
  | _ => false
  end.

(** How the instruction a goroutine is at touches the variable [total]. *)
Inductive access : Type := Reads | Writes.

Definition loop_access (pc : loop_pc) : option access :=
  match pc with
  | LAddTotal _ => Some Writes     (* total += n *)
  | LTick => Some Reads            (* getUnits(total) *)
  | _ => None
  end.

Definition agg_access (pc : agg_pc) : option access :=
  match pc with
  | AInit => Some Writes           (* var total int64 *)
  | ASummary => Some Reads         (* getUnits(total) *)
  | _ => None
  end.

Definition conflicting (a b : access) : bool :=
  match a, b with
  | Reads, Reads => false
  | _, _ => true
  end.

(** A data race on [total]: the loop and the body of [CalculateBandwidth]
    are both at an instruction that touches [total], one of them writes, both
    can move, and nothing orders the two moves. *)
Definition races_on_total (s : state) : bool :=
  match st_status s, loop_access (st_loop s), agg_access (st_agg s) with
  | Running, Some a, Some b => conflicting a b
  | _, _, _ => false
  end.

Definition no_interrupt (sched : list label) : bool :=
  forallb (fun l => negb (is_interrupt l)) sched.

(** No signal has arrived and nothing has cancelled the context: the body
    of [CalculateBandwidth] has not got past line 199, and [main] has not
    reached [os.Exit]. *)
Definition uncancelled (s : state) : Prop :=
  st_sigs s = false /\ st_sig s = SWait /\ st_done s = false /\
  (st_agg s = AInit \/ st_agg s = AWait) /\
  st_summary s = None /\ st_status s <> Exited /\ st_main s <> MExit.

(** The loop never gets a byte count: [main] is before its first
    [io.CopyN] on [chunks], or past a failed one. *)
Definition starved (chunks : list N) (s : state) : Prop :=
  st_run s = mkRunState 0 0 /\
  (st_loop s = LUnborn \/ st_loop s = LSelect \/ st_loop s = LTick) /\
  ((st_main s = MSelect \/ st_main s = MCopy) /\ st_chunks s = chunks \/
   st_main s = MWait \/ st_main s = MExit).

(** An interrupt, after which [main] leaves [ReadData] and exits while the
    body of [CalculateBandwidth] is still at line 199. *)
Definition interrupt_then_exit : list label :=
  [Go GAggregator; Interrupt; Go GSignal; Go GSignal; Go GMain; Go GMain].

(** A read error, then an interrupt, then the same. *)
Definition error_then_exit : list label :=
  [Go GAggregator; Go GMain; Go GMain;
   Interrupt; Go GSignal; Go GSignal; Go GMain; Go GMain].

(** The reader stops on a read error. *)
Definition reader_fails : list label :=
  [Go GAggregator; Go GMain; Go GMain].

(** One chunk is handed to the loop, and an interrupt takes the body of
    [CalculateBandwidth] to line 200 before the loop has added it. *)
Definition interrupt_during_add : list label :=
  [Go GAggregator; Go GMain; Go GMain; Handoff;
   Interrupt; Go GSignal; Go GSignal; Go GAggregator].

(** ** Configuration (bw.go:77-108, 136-140) *)

(** [os.ModeCharDevice] of Go's standard library, [1 << (32 - 1 - 10)]. *)
Definition ModeCharDevice : Z := 2 ^ 21.

(** bw.go:137-140; [mode] is the file mode of standard input. *)
Definition isStdin (mode : Z) : bool := Z.land mode ModeCharDevice =? 0.

(** The only reader [main] ever assigns to [src]. *)
Inductive reader : Type := Stdin.

(** The variables the flags write to.  The flags [file] and [socket] share
    the destination [socket]; an absent flag leaves [""] or 0. *)
Record flags := mkFlags { fl_socket : string; fl_port : Z; fl_mb : Z }.

(** [src] and [mb] as the action leaves them; [None] is the nil reader. *)
Record vars := mkVars { v_src : option reader; v_mb : Z }.

Inductive action_error : Type := ErrNoSource | ErrTwoSources.

Definition action_message (e : action_error) : string :=
  match e with
  | ErrNoSource =>
      "must provide at least unix socket, port, or be writing to stdin"
  | ErrTwoSources =>
      "must only specify either a port, socket, or be writing to stdin"
  end.

(** The [Action] of the app, bw.go:77-95. *)
Definition Action (mode : Z) (f : flags) : option action_error * vars :=
  let socket := fl_socket f in
  let port := fl_port f in
  let src := None in
  let mb := fl_mb f in
  if (port =? 0) && String.eqb socket "" && negb (isStdin mode)
  then (Some ErrNoSource, mkVars src mb)
  else if negb (port =? 0) && negb (String.eqb socket "")
  then (Some ErrTwoSources, mkVars src mb)
  else
    let src := if isStdin mode then Some Stdin else src in
    let mb := if mb =? 0 then 1 else mb in
    (None, mkVars src mb).

(** bw.go:104-108: an error of the action is printed and the process exits
    with status 1; otherwise [main] goes on with [src] and [mb]. *)
Inductive startup_result : Type :=
| ExitWith (code : Z) (printed : string)
| Proceed (v : vars).

Definition startup (mode : Z) (f : flags) : startup_result :=
  match Action mode f with
  | (Some e, _) => ExitWith 1 (action_message e)
  | (None, v) => Proceed v
  end.

(** ** Accounting in the goroutines *)

(** The byte count [main] is sending on [bRead]. *)
Definition sending (s : state) : Z :=
  match st_main s with
  | MSend n => n
  | _ => 0
  end.

(** The byte count the loop has received and not yet added to [total]. *)
Definition unadded (s : state) : Z :=
  match st_loop s with
  | LAddTotal n => n
  | _ => 0
  end.

(** The byte count the loop has received and not yet added to
    [prevSecond]. *)
Definition in_window (s : state) : Z :=
  match st_loop s with
  | LAddTotal n | LAddPrev n => n
  | _ => 0
  end.

(** The bytes that have left [io.CopyN] and are not yet in [total]. *)
Definition in_flight (s : state) : Z := sending s + unadded s.

(** The bytes read so far from a source that had [chunks0] to deliver. *)
Definition consumed (chunks0 : list N) (s : state) : Z :=
  avail chunks0 - avail (st_chunks s).

(** [main] is inside the loop of [ReadData]. *)
Definition reading (pc : main_pc) : bool :=
  match pc with
  | MSelect | MCopy | MSend _ => true
  | MWait | MExit => false
  end.

(** What every reachable state satisfies, on a source of at most 2^63 - 1
    bytes. *)
Definition accounted (chunks0 : list N) (s : state) : Prop :=
  (sending s = 0 \/ sending s = 409500) /\
  (in_window s = 0 \/ in_window s = 409500) /\
  (st_agg s = AInit ->
   total (st_run s) = 0 /\ prevSecond (st_run s) = 0 /\
   st_loop s = LUnborn) /\
  0 <= prevSecond (st_run s) /\
  prevSecond (st_run s) + in_window s <= total (st_run s) + unadded s /\
  total (st_run s) mod 409500 = 0 /\
  total (st_run s) + in_flight s <= consumed chunks0 s /\
  (reading (st_main s) = true ->
   total (st_run s) + in_flight s = consumed chunks0 s) /\
  avail (st_chunks s) <= avail chunks0 /\
  (avail chunks0 < 2 ^ 60 - 64 -> st_status s <> Panicked).


(** * Properties *)

(** ** Machine integers *)

Lemma wrap_in_range z : Int64.in_range (Int64.wrap z).
Proof.
  unfold Int64.in_range, Int64.wrap, Int64.min_int, Int64.max_int.
  pose proof (Z.mod_pos_bound (z + 2 ^ 63) (2 ^ 64) ltac:(lia)). lia.
Qed.

Lemma wrap_small z : Int64.in_range z -> Int64.wrap z = z.
Proof.
  unfold Int64.in_range, Int64.wrap, Int64.min_int, Int64.max_int. intros H.
  rewrite Z.mod_small by lia. lia.
Qed.


(** ** The conversion float64(int64) *)

Lemma round53_exact (c : Z) : Z.abs c < 2 ^ 53 -> Float64.round53 c = c.
Proof.
  intros H. unfold Float64.round53.
  destruct (Z.ltb_spec (Z.abs c) (2 ^ 53)); [reflexivity | lia].
Qed.

(** Above 2^53 the result is [q' * 2^sh] with a significand [q'] of 53 bits
    (or 2^53 itself, when rounding carries into the next binade) that is
    within half a unit in the last place of [|c|]. *)
Lemma round53_big (c : Z) :
  2 ^ 53 <= Z.abs c ->
  let sh := Z.log2 (Z.abs c) - 52 in
  exists q' : Z,
    Float64.round53 c = Z.sgn c * (q' * 2 ^ sh) /\
    1 <= sh /\
    2 ^ 52 * 2 ^ sh <= Z.abs c < 2 ^ 53 * 2 ^ sh /\
    2 ^ 52 <= q' <= 2 ^ 53 /\
    2 * Z.abs (q' * 2 ^ sh - Z.abs c) <= 2 ^ sh /\
    (2 ^ sh <= 2 * (Z.abs c - (2 ^ 53 - 1) * 2 ^ sh) -> q' = 2 ^ 53).
Proof.
  intros Hbig sh. unfold Float64.round53. fold sh.
  destruct (Z.ltb_spec (Z.abs c) (2 ^ 53)) as [Hlt|_]; [lia|].
  set (a := Z.abs c) in *.
  assert (Ha : 0 < a) by lia.
  pose proof (Z.log2_spec a Ha) as [Hlo Hhi].
  assert (Hl53 : 53 <= Z.log2 a).
  { change 53 with (Z.log2 (2 ^ 53)). apply Z.log2_le_mono. exact Hbig. }
  assert (Hsh : 1 <= sh) by (unfold sh; lia).
  assert (E1 : 2 ^ Z.log2 a = 2 ^ 52 * 2 ^ sh).
  { rewrite <- Z.pow_add_r by lia. f_equal. unfold sh. lia. }
  assert (E2 : 2 ^ Z.succ (Z.log2 a) = 2 ^ 53 * 2 ^ sh).
  { rewrite <- Z.pow_add_r by lia. f_equal. unfold sh. lia. }
  rewrite E1 in Hlo. rewrite E2 in Hhi.
  assert (Hp : 2 <= 2 ^ sh).
  { change 2 with (2 ^ 1) at 1. apply Z.pow_le_mono_r; lia. }
  set (p := 2 ^ sh) in *.
  pose proof (Z.div_mod a p ltac:(lia)) as Hdm.
  pose proof (Z.mod_pos_bound a p ltac:(lia)) as Hr.
  set (q := a / p) in *. set (r := a mod p) in *.
  assert (Hq : 2 ^ 52 <= q < 2 ^ 53) by nia.
  destruct (Z.ltb_spec (2 * r) p) as [H1|H1].
  - exists q. repeat split; try lia; nia.
  - destruct (Z.ltb_spec p (2 * r)) as [H2|H2].
    + exists (q + 1). repeat split; try lia; nia.
    + destruct (Z.even q) eqn:Hev.
      * exists q. repeat split; try lia; try nia.
        intros H3. assert (q = 2 ^ 53 - 1) by nia. subst q.
        rewrite H in Hev. discriminate.
      * exists (q + 1). repeat split; try lia; nia.
Qed.

Lemma round53_nonneg (c : Z) : 0 <= c -> 0 <= Float64.round53 c.
Proof.
  intros Hc. destruct (Z_lt_ge_dec (Z.abs c) (2 ^ 53)) as [H|H].
  - rewrite round53_exact by exact H. exact Hc.
  - destruct (round53_big c ltac:(lia)) as (q' & -> & Hsh & _ & Hq & _).
    pose proof (Z.pow_pos_nonneg 2 (Z.log2 (Z.abs c) - 52) ltac:(lia) ltac:(lia)).
    assert (Z.sgn c = 1) by lia. nia.
Qed.

Lemma round53_neg (c : Z) : c < 0 -> Float64.round53 c < 0.
Proof.
  intros Hc. destruct (Z_lt_ge_dec (Z.abs c) (2 ^ 53)) as [H|H].
  - rewrite round53_exact by exact H. exact Hc.
  - destruct (round53_big c ltac:(lia)) as (q' & -> & Hsh & _ & Hq & _).
    pose proof (Z.pow_pos_nonneg 2 (Z.log2 (Z.abs c) - 52) ltac:(lia) ltac:(lia)).
    assert (Z.sgn c = -1) by lia. nia.
Qed.

(** The relative error of the conversion is at most 2^-53. *)
Lemma round53_error (c : Z) : 2 ^ 53 * Z.abs (Float64.round53 c - c) <= Z.abs c.
Proof.
  destruct (Z_lt_ge_dec (Z.abs c) (2 ^ 53)) as [H|H].
  - rewrite round53_exact by exact H. lia.
  - destruct (round53_big c ltac:(lia)) as (q' & -> & Hsh & Ha & Hq & He & _).
    set (p := 2 ^ (Z.log2 (Z.abs c) - 52)) in *.
    destruct (Z.abs_spec c) as [[Hc Habs]|[Hc Habs]]; rewrite Habs in *.
    + assert (Z.sgn c = 1) as -> by lia. lia.
    + assert (Z.sgn c = -1) as -> by lia.
      replace (-1 * (q' * p) - c) with (- (q' * p - - c)) by ring.
      rewrite Z.abs_opp. lia.
Qed.

(** The threshold of the last label: counts below 2^60 - 64 convert to a
    float below 1024^6, counts from 2^60 - 64 on convert to 2^60 or more
    (2^60 - 64 is the tie between 2^60 - 128 and 2^60, and goes to the even
    significand, that of 2^60). *)
Lemma round53_below_PB (c : Z) :
  0 <= c < 2 ^ 60 - 64 -> 0 <= Float64.round53 c < 2 ^ 60.
Proof.
  intros Hc. split; [apply round53_nonneg; lia|].
  destruct (Z_lt_ge_dec (Z.abs c) (2 ^ 53)) as [H|H].
  - rewrite round53_exact by exact H. lia.
  - destruct (round53_big c ltac:(lia)) as (q' & -> & Hsh & Ha & Hq & He & _).
    rewrite !(Z.abs_eq c) in * by lia.
    assert (Z.sgn c = 1) as -> by lia.
    assert (Hl : Z.log2 c <= 59).
    { assert (Z.log2 c < 60); [|lia]. apply Z.log2_lt_pow2; lia. }
    set (sh := Z.log2 c - 52) in *.
    assert (Hcases : sh = 7 \/ sh <= 6) by lia.
    destruct Hcases as [E|Hle].
    + rewrite E in *. change (2 ^ 7) with 128 in *. lia.
    + assert (2 ^ sh <= 2 ^ 6) by (apply Z.pow_le_mono_r; lia).
      pose proof (Z.pow_pos_nonneg 2 sh ltac:(lia) ltac:(lia)).
      change (2 ^ 6) with 64 in *. nia.
Qed.

Lemma round53_above_PB (c : Z) :
  2 ^ 60 - 64 <= c <= 2 ^ 63 - 1 -> 2 ^ 60 <= Float64.round53 c < 2 ^ 70.
Proof.
  intros Hc.
  destruct (round53_big c ltac:(lia)) as (q' & -> & Hsh & Ha & Hq & He & Hup).
  rewrite !(Z.abs_eq c) in * by lia.
  assert (Z.sgn c = 1) as -> by lia.
  assert (Hl : 59 <= Z.log2 c <= 62).
  { split.
    - change 59 with (Z.log2 (2 ^ 59)). apply Z.log2_le_mono. lia.
    - assert (Z.log2 c < 63); [|lia]. apply Z.log2_lt_pow2; lia. }
  set (sh := Z.log2 c - 52) in *.
  assert (Hcases : sh = 7 \/ sh = 8 \/ sh = 9 \/ sh = 10) by lia.
  destruct Hcases as [E|[E|[E|E]]]; rewrite E in *;
    [change (2 ^ 7) with 128 in * | change (2 ^ 8) with 256 in *
    | change (2 ^ 9) with 512 in * | change (2 ^ 10) with 1024 in * ];
    lia.
Qed.


(** ** Unit scaler *)

(** *** The defining equations of [reducer] *)

Lemma reducer_lt (x : Q) (i : nat) :
  (x < inject_Z nextStep)%Q ->
  reducer x i = option_map (mkUnit x) (nth_error descs i).
Proof.
  intros H. simp reducer.
  destruct (Qlt_le_dec x (inject_Z nextStep)) as [Hlt|Hge]; simpl.
  - reflexivity.
  - exfalso. exact (Qlt_not_le _ _ H Hge).
Qed.

Lemma reducer_ge (x : Q) (i : nat) :
  (inject_Z nextStep <= x)%Q ->
  reducer x i = reducer (x / inject_Z nextStep) (S i).
Proof.
  intros H. rewrite reducer_equation_1.
  destruct (Qlt_le_dec x (inject_Z nextStep)) as [Hlt|Hge]; simpl.
  - exfalso. exact (Qlt_not_le _ _ Hlt H).
  - reflexivity.
Qed.

Lemma pow_nextStep_pos (k : nat) : 0 < nextStep ^ Z.of_nat k.
Proof. apply Z.pow_pos_nonneg; unfold nextStep; lia. Qed.

Lemma pow_nextStep_succ (k : nat) :
  nextStep ^ Z.of_nat (S k) = nextStep ^ Z.of_nat k * nextStep.
Proof. rewrite Nat2Z.inj_succ, Z.pow_succ_r by lia. lia. Qed.

Lemma Qdiv_nextStep_lower (x : Q) (k : nat) :
  (inject_Z (nextStep ^ Z.of_nat (S k)) <= x)%Q ->
  (inject_Z (nextStep ^ Z.of_nat k) <= x / inject_Z nextStep)%Q.
Proof.
  intros H. apply Qle_shift_div_l; [reflexivity|].
  rewrite <- inject_Z_mult, <- pow_nextStep_succ. exact H.
Qed.

Lemma Qdiv_nextStep_upper (x : Q) (k : nat) :
  (x < inject_Z (nextStep ^ Z.of_nat (S k)))%Q ->
  (x / inject_Z nextStep < inject_Z (nextStep ^ Z.of_nat k))%Q.
Proof.
  intros H. apply Qlt_shift_div_r; [reflexivity|].
  rewrite <- inject_Z_mult, <- pow_nextStep_succ. exact H.
Qed.

Lemma nextStep_le_pow (k : nat) : nextStep <= nextStep ^ Z.of_nat (S k).
Proof.
  rewrite pow_nextStep_succ. pose proof (pow_nextStep_pos k).
  unfold nextStep in *. nia.
Qed.

(** A count in the [k]-th band is divided [k] times and labelled
    [descs[i + k]], when that label exists. *)
Lemma reducer_band (k : nat) : forall (x : Q) (i : nat),
  (k <> O -> (inject_Z (nextStep ^ Z.of_nat k) <= x)%Q) ->
  (x < inject_Z (nextStep ^ Z.of_nat (S k)))%Q ->
  reducer x i = option_map (mkUnit (shrink k x)) (nth_error descs (i + k)).
Proof.
  induction k as [|k IH]; intros x i Hlo Hhi.
  - rewrite Nat.add_0_r. apply reducer_lt. exact Hhi.
  - specialize (Hlo ltac:(discriminate)).
    rewrite reducer_ge.
    + rewrite IH.
      * simpl shrink. rewrite Nat.add_succ_r. reflexivity.
      * intros _. apply Qdiv_nextStep_lower. exact Hlo.
      * apply Qdiv_nextStep_upper. exact Hhi.
    + eapply Qle_trans; [|exact Hlo].
      rewrite <- Zle_Qle. apply nextStep_le_pow.
Qed.

Lemma shrink_scale (k : nat) : forall x : Q,
  (shrink k x * inject_Z (nextStep ^ Z.of_nat k) == x)%Q.
Proof.
  induction k as [|k IH]; intros x.
  - simpl. apply Qmult_1_r.
  - simpl shrink. rewrite pow_nextStep_succ, inject_Z_mult, Qmult_assoc, IH.
    rewrite Qmult_comm. apply Qmult_div_r. discriminate.
Qed.

Lemma shrink_lower (k : nat) : forall x : Q,
  (inject_Z (nextStep ^ Z.of_nat k) <= x)%Q -> (1 <= shrink k x)%Q.
Proof.
  induction k as [|k IH]; intros x H.
  - exact H.
  - simpl shrink. apply IH. apply Qdiv_nextStep_lower. exact H.
Qed.

Lemma shrink_nonneg (k : nat) : forall x : Q, (0 <= x)%Q -> (0 <= shrink k x)%Q.
Proof.
  induction k as [|k IH]; intros x H.
  - exact H.
  - simpl shrink. apply IH. apply Qle_shift_div_l; [reflexivity|].
    rewrite Qmult_0_l. exact H.
Qed.

Lemma shrink_upper (k : nat) : forall x : Q,
  (x < inject_Z (nextStep ^ Z.of_nat (S k)))%Q ->
  (shrink k x < inject_Z nextStep)%Q.
Proof.
  induction k as [|k IH]; intros x H.
  - exact H.
  - simpl shrink. apply IH. apply Qdiv_nextStep_upper. exact H.
Qed.

(** Every non-negative value lies in exactly one band. *)
Lemma band_of (n : Z) :
  0 <= n ->
  exists k : nat,
    (k <> O -> nextStep ^ Z.of_nat k <= n) /\ n < nextStep ^ Z.of_nat (S k) /\
    Z.of_nat k = Z.log2 n / 10.
Proof.
  intros Hn. exists (Z.to_nat (Z.log2 n / 10)).
  pose proof (Z.log2_nonneg n) as HL.
  assert (Hk : 0 <= Z.log2 n / 10) by (apply Z.div_pos; lia).
  rewrite Nat2Z.inj_succ, Z2Nat.id by lia.
  pose proof (Z.div_mod (Z.log2 n) 10 ltac:(lia)) as Hdm.
  pose proof (Z.mod_pos_bound (Z.log2 n) 10 ltac:(lia)) as Hm.
  set (k := Z.log2 n / 10) in *.
  change nextStep with (2 ^ 10). rewrite <- !Z.pow_mul_r by lia.
  repeat split.
  - intros Hk0. assert (0 < k) by lia.
    assert (0 < n) by (destruct (Z.eq_dec n 0); [subst; simpl in *; lia | lia]).
    pose proof (Z.log2_spec n ltac:(lia)) as [Hlo _].
    eapply Z.le_trans; [|exact Hlo]. apply Z.pow_le_mono_r; lia.
  - destruct (Z.eq_dec n 0) as [->|Hnz].
    + apply Z.pow_pos_nonneg; lia.
    + pose proof (Z.log2_spec n ltac:(lia)) as [_ Hhi].
      eapply Z.lt_le_trans; [exact Hhi|]. apply Z.pow_le_mono_r; lia.
Qed.

(** [getUnits] on a count whose float lies in the [k]-th band. *)
Lemma getUnits_band (c : Z) (k : nat) :
  (k <> O -> nextStep ^ Z.of_nat k <= Float64.round53 c) ->
  Float64.round53 c < nextStep ^ Z.of_nat (S k) ->
  getUnits c =
  option_map (mkUnit (shrink k (Float64.of_int64 c))) (nth_error descs k).
Proof.
  intros Hlo Hhi. unfold getUnits, Float64.of_int64.
  rewrite (reducer_band k); [reflexivity| |].
  - intros Hk. rewrite <- Zle_Qle. exact (Hlo Hk).
  - rewrite <- Zlt_Qlt. exact Hhi.
Qed.

Lemma descs_defined (k : nat) :
  (k <= 5)%nat -> exists d, nth_error descs k = Some d.
Proof.
  intros Hk.
  do 6 (destruct k as [|k]; [simpl; eexists; reflexivity|]). lia.
Qed.

(** A float below 1024^6 gets one of the six labels. *)
Lemma getUnits_defined (c : Z) :
  0 <= Float64.round53 c < 2 ^ 60 ->
  exists k d,
    (k <= 5)%nat /\ label_at k d /\
    getUnits c = Some (mkUnit (shrink k (Float64.of_int64 c)) d) /\
    (0 <= shrink k (Float64.of_int64 c))%Q /\
    (shrink k (Float64.of_int64 c) < inject_Z nextStep)%Q.
Proof.
  intros [H0 Hhi].
  destruct (band_of (Float64.round53 c) H0) as (k & Hlo & Hup & Hk).
  assert (Hk5 : (k <= 5)%nat).
  { assert (Z.log2 (Float64.round53 c) < 60).
    { destruct (Z.eq_dec (Float64.round53 c) 0) as [->|Hnz]; [simpl; lia|].
      apply Z.log2_lt_pow2; lia. }
    assert (Z.log2 (Float64.round53 c) / 10 < 6)
      by (apply Z.div_lt_upper_bound; lia).
    lia. }
  destruct (descs_defined k Hk5) as [d Hd].
  exists k, d. repeat split.
  - exact Hk5.
  - exact Hd.
  - rewrite (getUnits_band c k Hlo Hup), Hd. reflexivity.
  - apply shrink_nonneg. unfold Float64.of_int64.
    change 0%Q with (inject_Z 0). rewrite <- Zle_Qle. exact H0.
  - apply shrink_upper. unfold Float64.of_int64.
    rewrite <- Zlt_Qlt. exact Hup.
Qed.

(** A float in [2^60, 2^70) takes six divisions, and [descs[6]] does not
    exist. *)
Lemma getUnits_panics (c : Z) :
  2 ^ 60 <= Float64.round53 c < 2 ^ 70 -> getUnits c = None.
Proof.
  intros [Hlo Hhi]. rewrite (getUnits_band c 6).
  - reflexivity.
  - intros _. exact Hlo.
  - exact Hhi.
Qed.

(** Negative counts and counts below 1024 are not divided. *)
Lemma round53_lt_nextStep (c : Z) : c < 1024 -> Float64.round53 c < 1024.
Proof.
  intros Hc. destruct (Z_lt_ge_dec (Z.abs c) (2 ^ 53)) as [H|H].
  - rewrite round53_exact by exact H. exact Hc.
  - pose proof (round53_neg c ltac:(lia)). lia.
Qed.

(** C3, as the code has it: counts below 2^60 - 64 are labelled within
    [descs], after at most five divisions; from 2^60 - 64 on there is no
    clamp at PB: the index reaches 6 and [descs[6]] is out of range. *)
Theorem getUnits_label_in_range (c : Z) :
  0 <= c <= Int64.max_int ->
  if c <? 2 ^ 60 - 64 then
    exists u k,
      getUnits c = Some u /\ (k <= 5)%nat /\ label_at k (desc u) /\
      count u = shrink k (Float64.of_int64 c)
  else getUnits c = None.
Proof.
  intros [H0 Hmax]. unfold Int64.max_int in Hmax.
  destruct (Z.ltb_spec c (2 ^ 60 - 64)) as [Hlt|Hge].
  - destruct (getUnits_defined c (round53_below_PB c ltac:(lia)))
      as (k & d & Hk & Hd & Hg & _).
    exists (mkUnit (shrink k (Float64.of_int64 c)) d), k.
    repeat split; assumption.
  - apply getUnits_panics. apply round53_above_PB. lia.
Qed.

Lemma getUnits_label_in_range_witness :
  exists u k,
    getUnits 3500 = Some u /\ (k <= 5)%nat /\ label_at k (desc u) /\
    count u = shrink k (Float64.of_int64 3500).
Proof.
  apply (getUnits_label_in_range 3500). unfold Int64.max_int. lia.
Defined.

(** C3 as stated fails: the count 2^60 is not negative, and scaling it ends
    in the out-of-range access [descs[6]]. *)
Lemma getUnits_indexes_past_PB :
  0 <= 2 ^ 60 /\ getUnits (2 ^ 60) = None /\ nth_error descs 6 = None.
Proof.
  split; [lia|]. split; [|reflexivity].
  apply getUnits_panics.
  replace (Float64.round53 (2 ^ 60)) with (2 ^ 60) by (vm_compute; reflexivity).
  lia.
Qed.

(** C4, as the code has it: for counts below 2^60 - 64 the pair scales back
    to [float64(c)] exactly, [float64(c)] is within a relative 2^-53 of [c],
    and the value is below 1024 under every label, PB included. *)
Theorem getUnits_round_trip (c : Z) :
  0 <= c < 2 ^ 60 - 64 ->
  exists u k,
    getUnits c = Some u /\ label_at k (desc u) /\
    (count u * inject_Z (nextStep ^ Z.of_nat k) == Float64.of_int64 c)%Q /\
    (0 <= count u)%Q /\ (count u < inject_Z nextStep)%Q /\
    2 ^ 53 * Z.abs (Float64.round53 c - c) <= c.
Proof.
  intros Hc.
  destruct (getUnits_defined c (round53_below_PB c Hc))
    as (k & d & Hk & Hd & Hg & Hnn & Hlt).
  exists (mkUnit (shrink k (Float64.of_int64 c)) d), k. cbn [count desc].
  repeat split; try assumption.
  - apply shrink_scale.
  - pose proof (round53_error c) as He. rewrite (Z.abs_eq c) in He by lia.
    exact He.
Qed.

Lemma getUnits_round_trip_witness :
  exists u k,
    getUnits 3500 = Some u /\ label_at k (desc u) /\
    (count u * inject_Z (nextStep ^ Z.of_nat k) == Float64.of_int64 3500)%Q /\
    (0 <= count u)%Q /\ (count u < inject_Z nextStep)%Q /\
    2 ^ 53 * Z.abs (Float64.round53 3500 - 3500) <= 3500.
Proof.
  apply (getUnits_round_trip 3500). lia.
Defined.

(** C4 as stated fails: for the count 2^62 no pair is returned at all. *)
Lemma getUnits_returns_no_pair :
  0 <= 2 ^ 62 <= Int64.max_int /\ ~ exists u, getUnits (2 ^ 62) = Some u.
Proof.
  split; [unfold Int64.max_int; lia|].
  intros [u Hu]. rewrite getUnits_panics in Hu; [discriminate|].
  replace (Float64.round53 (2 ^ 62)) with (2 ^ 62) by (vm_compute; reflexivity).
  lia.
Qed.

Lemma getUnits_small (c : Z) :
  c < 1024 -> getUnits c = Some (mkUnit (Float64.of_int64 c) "B").
Proof.
  intros Hc. unfold getUnits. rewrite reducer_lt; [reflexivity|].
  unfold Float64.of_int64. rewrite <- Zlt_Qlt.
  apply round53_lt_nextStep. exact Hc.
Qed.

(** C10: a count below 1024, zero and negative counts included, comes back
    as [float64(c)] under the label B, undivided. *)
Theorem getUnits_below_nextStep (c : Z) :
  c < 1024 ->
  getUnits c = Some (mkUnit (Float64.of_int64 c) "B") /\
  (- 2 ^ 53 < c -> Float64.of_int64 c = inject_Z c).
Proof.
  intros Hc. split.
  - apply getUnits_small. exact Hc.
  - intros Hlo. unfold Float64.of_int64. rewrite round53_exact by lia.
    reflexivity.
Qed.

Lemma getUnits_below_nextStep_witness :
  (getUnits 0 = Some (mkUnit 0 "B") /\
   getUnits (-7) = Some (mkUnit (inject_Z (-7)) "B")) /\
  getUnits 1023 = Some (mkUnit (inject_Z 1023) "B").
Proof.
  split; [split|].
  - exact (proj1 (getUnits_below_nextStep 0 ltac:(lia))).
  - exact (proj1 (getUnits_below_nextStep (-7) ltac:(lia))).
  - exact (proj1 (getUnits_below_nextStep 1023 ltac:(lia))).
Defined.

(** The scenarios of the scaler: 1023 stays in bytes, 1024 is one KB, 3500
    is 3.418 KB. *)
Example getUnits_1023 : getUnits 1023 = Some (mkUnit (inject_Z 1023) "B").
Proof. apply getUnits_small. lia. Qed.

Example getUnits_1024 :
  exists u, getUnits 1024 = Some u /\ (count u == 1)%Q /\ desc u = "KB"%string.
Proof. eexists. split; [vm_compute; reflexivity|]. split; reflexivity. Qed.

Example getUnits_3500 :
  exists u,
    getUnits 3500 = Some u /\ (count u == 3500 # 1024)%Q /\
    desc u = "KB"%string.
Proof. eexists. split; [vm_compute; reflexivity|]. split; reflexivity. Qed.

(** On the samples, which include the thresholds 2^53 and 2^60 - 64 and
    the ends of the int64 range, the model and binary64 agree: same
    conversion, same label or same out-of-range access, same value. *)
Example model_agrees_with_binary64 :
  forallb binary64_agrees binary64_samples = true.
Proof. vm_compute. reflexivity. Qed.

(** ** Stream reader *)

Lemma avail_nonneg (cs : list N) : 0 <= avail cs.
Proof. induction cs; cbn [avail]; lia. Qed.

(** [io.CopyN]: without an error exactly [n] bytes were copied; with one,
    fewer, and they were all the source had. *)
Lemma CopyN_spec (fin : ioerr) (cs : list N) : forall (n w : Z) e rest,
  0 < n ->
  CopyN cs fin n = (w, e, rest) ->
  match e with
  | None => w = n /\ n <= avail cs
  | Some err => err = fin /\ w = avail cs /\ w < n /\ rest = []
  end.
Proof.
  induction cs as [|k cs IH]; intros n w e rest Hn H; simpl in H.
  - destruct (Z.leb_spec n 0); [lia|]. injection H as <- <- <-.
    cbn [avail]. repeat split; lia.
  - destruct (Z.leb_spec n 0); [lia|].
    pose proof (avail_nonneg cs) as Hcs.
    destruct (Z.ltb_spec (Z.of_N k) n) as [Hk|Hk].
    + destruct (CopyN cs fin (n - Z.of_N k)) as [[w1 e1] r1] eqn:E.
      injection H as <- <- <-. apply IH in E; [|lia].
      cbn [avail]. destruct e1 as [err|].
      * destruct E as (-> & -> & Hlt & ->). repeat split; lia.
      * lia.
    + injection H as <- <- _. cbn [avail]. lia.
Qed.

Lemma ReadData_loop_eq ctx r fin i cs :
  ReadData_loop ctx r fin i cs =
  if ctx i then mkRd [] None cs
  else match CopyN cs fin (bufSize r) with
       | (n, Some err, rest) => mkRd [Request (bufSize r)] (Some err) rest
       | (n, None, rest) =>
           rd_cons [Request (bufSize r); Send n]
                   (ReadData_loop ctx r fin (S i) rest)
       end.
Proof.
  funelim (ReadData_loop ctx r fin i cs).
  all: repeat match goal with
              | H : _ = true |- _ => rewrite H
              | H : _ = false |- _ => rewrite H
              | H : CopyN _ _ _ = _ |- _ => rewrite H
              end; reflexivity.
Qed.

(** Every request asks for 409500 bytes, and only full chunks are sent: a
    read that copies fewer bytes comes with an error, and the loop returns
    before the send. *)
Lemma ReadData_loop_trace ctx r fin i cs :
  Forall chunk_sized (rd_trace (ReadData_loop ctx r fin i cs)).
Proof.
  funelim (ReadData_loop ctx r fin i cs).
  - constructor.
  - constructor; [reflexivity|constructor].
  - cbn [rd_cons rd_trace app].
    constructor; [reflexivity|]. constructor; [|assumption].
    match goal with
    | E : CopyN _ _ ?b = _ |- _ =>
        assert (Hb : 0 < b) by reflexivity;
        destruct (CopyN_spec _ _ _ _ _ _ Hb E) as [Hw _];
        rewrite Hw; reflexivity
    end.
Qed.

Lemma ReadData_loop_hint ctx r r' fin i cs :
  ReadData_loop ctx r' fin i cs = ReadData_loop ctx r fin i cs.
Proof.
  funelim (ReadData_loop ctx r fin i cs);
    rewrite (ReadData_loop_eq ctx r'); change (bufSize r') with (bufSize r);
    repeat match goal with
           | H : _ = true |- _ => rewrite H
           | H : _ = false |- _ => rewrite H
           | H : CopyN _ _ _ = _ |- _ => rewrite H
           end; try reflexivity.
  f_equal. auto.
Qed.

Lemma requests_chunk_sized (t : list rd_event) :
  Forall chunk_sized t -> Forall (fun b => b = 409500) (requests t).
Proof.
  induction 1 as [|ev t Hev _ IH]; [constructor|].
  destruct ev; cbn [requests]; [constructor|]; assumption.
Qed.

Lemma sent_chunk_sized (t : list rd_event) :
  Forall chunk_sized t -> Forall (fun n => n = 409500) (sent t).
Proof.
  induction 1 as [|ev t Hev _ IH]; [constructor|].
  destruct ev; cbn [sent]; [|constructor]; assumption.
Qed.

(** C6: whatever the hint, every read attempt asks for 409500 bytes, and
    the run of the reader does not depend on the hint. *)
Theorem ReadData_chunk_size_fixed (ctx : nat -> bool) (src : source) (r : Z) :
  bufSize r = 409500 /\
  Forall (fun b => b = 409500) (requests (rd_trace (ReadData ctx src r))) /\
  forall r', ReadData ctx src r' = ReadData ctx src r.
Proof.
  split; [reflexivity|]. split.
  - apply requests_chunk_sized, ReadData_loop_trace.
  - intros r'. apply ReadData_loop_hint.
Qed.

(** ** Bandwidth aggregator *)

Lemma sum_nonneg (ns : list Z) : Forall (fun n => 0 <= n) ns -> 0 <= sum ns.
Proof. induction 1; cbn [sum fold_right]; [lia|]. fold (sum l). lia. Qed.

Lemma Int64_add_exact (x y : Z) :
  0 <= x -> 0 <= y -> x + y <= Int64.max_int -> Int64.add x y = x + y.
Proof.
  intros Hx Hy Hxy. unfold Int64.add. apply wrap_small.
  unfold Int64.in_range, Int64.min_int, Int64.max_int in *. lia.
Qed.

(** Ticks leave [total] alone; byte counts are added one by one. *)
Lemma aggregate_total (evs : list event) : forall s0 s reps,
  Forall (fun n => 0 <= n) (byteCounts evs) ->
  0 <= total s0 ->
  total s0 + sum (byteCounts evs) <= Int64.max_int ->
  aggregate evs s0 = Some (s, reps) ->
  total s = total s0 + sum (byteCounts evs).
Proof.
  induction evs as [|[n|e] evs IH]; intros s0 s reps Hnn H0 Hmax Hagg;
    cbn [aggregate byteCounts sum fold_right] in *.
  - injection Hagg as <- _. lia.
  - fold (sum (byteCounts evs)) in *. inversion Hnn as [|? ? Hn Hns]; subst.
    pose proof (sum_nonneg _ Hns) as Hs.
    apply IH in Hagg; cbn [onByteCount total] in *;
      rewrite ?Int64_add_exact in * by lia; try assumption; lia.
  - fold (sum (byteCounts evs)) in *. unfold onTick in Hagg.
    destruct (getUnits (prevSecond s0)); [|discriminate].
    destruct (getUnits (total s0)); [|discriminate].
    destruct (aggregate evs _) as [[s'' reps']|] eqn:E; [|discriminate].
    injection Hagg as <- _. apply IH in E; cbn [total] in *; assumption.
Qed.

Lemma aggregate_byteCounts (ns : list Z) : forall s0,
  exists s, aggregate (map ByteCount ns) s0 = Some (s, []).
Proof.
  induction ns as [|n ns IH]; intros s0; cbn [map aggregate].
  - eexists; reflexivity.
  - apply IH.
Qed.

Lemma byteCounts_map (ns : list Z) : byteCounts (map ByteCount ns) = ns.
Proof. induction ns; cbn [map byteCounts]; congruence. Qed.

(** C7, as the code has it: [total] is the exact sum of the byte counts
    received as long as that sum fits the int64 counter. *)
Theorem total_is_sum (ns : list Z) (s0 : RunState) :
  Forall (fun n => 0 <= n) ns ->
  0 <= total s0 ->
  total s0 + sum ns <= Int64.max_int ->
  (exists s, aggregate (map ByteCount ns) s0 = Some (s, []) /\
             total s = total s0 + sum ns) /\
  (forall evs s reps,
      byteCounts evs = ns -> aggregate evs s0 = Some (s, reps) ->
      total s = total s0 + sum ns).
Proof.
  intros Hnn H0 Hmax. split.
  - destruct (aggregate_byteCounts ns s0) as [s Hs]. exists s.
    split; [exact Hs|].
    rewrite <- (byteCounts_map ns).
    eapply aggregate_total; rewrite ?byteCounts_map; eassumption.
  - intros evs s reps <- Hagg. eapply aggregate_total; eassumption.
Qed.

Lemma total_is_sum_witness :
  exists s, aggregate (map ByteCount [409500; 409500; 409500])
                      (mkRunState 0 0) = Some (s, []) /\
            total s = total (mkRunState 0 0) + sum [409500; 409500; 409500].
Proof.
  apply (total_is_sum [409500; 409500; 409500] (mkRunState 0 0)).
  - repeat constructor; lia.
  - simpl. lia.
  - unfold Int64.max_int. simpl. lia.
Defined.

(** C7 as stated fails: two byte counts whose sum leaves the int64 range
    make the counter wrap around. *)
Lemma total_wraps_around :
  exists s,
    aggregate [ByteCount (2 ^ 63 - 1); ByteCount 1] (mkRunState 0 0)
      = Some (s, []) /\
    total s = - 2 ^ 63 /\ total s <> sum [2 ^ 63 - 1; 1].
Proof.
  eexists. split; [reflexivity|]. split; [reflexivity|].
  vm_compute. discriminate.
Qed.

Lemma getUnits_some (c : Z) : c < 2 ^ 60 - 64 -> exists u, getUnits c = Some u.
Proof.
  intros Hc. destruct (Z_lt_ge_dec c 0) as [Hneg|Hpos].
  - eexists. apply getUnits_small. lia.
  - destruct (getUnits_defined c (round53_below_PB c ltac:(lia)))
      as (k & d & _ & _ & Hg & _).
    eexists. exact Hg.
Qed.

Lemma onTick_completes (elapsed : Q) (s : RunState) :
  prevSecond s < 2 ^ 60 - 64 -> total s < 2 ^ 60 - 64 ->
  exists rep, onTick elapsed s = Some (mkRunState (total s) 0, rep).
Proof.
  intros Hp Ht. unfold onTick.
  destruct (getUnits_some _ Hp) as [u ->].
  destruct (getUnits_some _ Ht) as [v ->].
  eexists. reflexivity.
Qed.

(** C8: a tick that completes leaves [prevSecond] at 0 and [total] as it
    was; and it completes whenever both counters are below 2^60 - 64. *)
Theorem tick_resets_window (elapsed : Q) (s : RunState) :
  (forall s' rep,
      onTick elapsed s = Some (s', rep) ->
      prevSecond s' = 0 /\ total s' = total s) /\
  (prevSecond s < 2 ^ 60 - 64 -> total s < 2 ^ 60 - 64 ->
   exists rep, onTick elapsed s = Some (mkRunState (total s) 0, rep)).
Proof.
  split.
  - intros s' rep H. unfold onTick in H.
    destruct (getUnits (prevSecond s)); [|discriminate].
    destruct (getUnits (total s)); [|discriminate].
    injection H as <- _. split; reflexivity.
  - apply onTick_completes.
Qed.

Lemma tick_resets_window_witness :
  exists rep,
    onTick 2 (mkRunState 2000 1500) = Some (mkRunState 2000 0, rep).
Proof.
  apply (proj2 (tick_resets_window 2 (mkRunState 2000 1500))); simpl; lia.
Defined.

(** ** The goroutines of [main] *)

Lemma exited_is_final fin mb (s : state) (l : label) :
  st_status s = Exited -> step fin mb s l = None.
Proof. intros H. unfold step. rewrite H. reflexivity. Qed.

Lemma run_app fin mb (p q : list label) : forall s,
  run fin mb s (p ++ q) =
  match run fin mb s p with
  | Some s' => run fin mb s' q
  | None => None
  end.
Proof.
  induction p as [|l p IH]; intros s; cbn [app run]; [reflexivity|].
  destruct (step fin mb s l); [apply IH|reflexivity].
Qed.

(** C1 on the code: after an interrupt, and also after a read error
    followed by an interrupt, there is a schedule on which [os.Exit(0)] runs
    while the body of [CalculateBandwidth] is still at line 199, its wait
    over but the final summary not printed; the process has then exited and
    nothing moves any more, so the summary is never printed. *)
Theorem exit_before_final_summary (fin : ioerr) (mb : Z) (chunks : list N) :
  (exists s,
      run fin mb (init chunks) interrupt_then_exit = Some s /\
      st_status s = Exited /\ st_summary s = None /\
      st_done s = true /\ st_agg s = AWait /\
      forall l, step fin mb s l = None) /\
  (exists s,
      run fin mb (init []) error_then_exit = Some s /\
      st_status s = Exited /\ st_summary s = None /\
      st_done s = true /\ st_agg s = AWait /\
      forall l, step fin mb s l = None).
Proof.
  split; eexists; (split; [vm_compute; reflexivity|]);
    repeat split; intros l; apply exited_is_final; reflexivity.
Qed.

(** On another schedule the summary is printed before the exit: which of
    the two happens is left to the scheduler. *)
Lemma final_summary_before_exit (fin : ioerr) (mb : Z) (chunks : list N) :
  exists s line,
    run fin mb (init chunks)
      [Go GAggregator; Interrupt; Go GSignal; Go GSignal;
       Go GAggregator; Go GAggregator; Go GAggregator; Go GMain; Go GMain]
      = Some s /\
    st_status s = Exited /\ st_summary s = Some line.
Proof.
  eexists. eexists. split; [vm_compute; reflexivity|]. split; reflexivity.
Qed.

(** Without an interrupt nothing cancels the context, whatever else
    happens, a read error included. *)
Lemma step_uncancelled fin mb (s s' : state) (l : label) :
  uncancelled s -> is_interrupt l = false -> step fin mb s l = Some s' ->
  uncancelled s' /\
  (st_main s = MWait -> st_main s' = MWait) /\
  (st_agg s = AWait -> st_agg s' = AWait).
Proof.
  unfold uncancelled. intros (Hsigs & Hsig & Hdone & Hagg & Hsum & Hst & Hm) Hl H.
  unfold step in H. destruct (st_status s) eqn:Est; try discriminate.
  destruct l as [|d| | |[ | | | ]]; try discriminate.
  - (* Elapse *)
    destruct (Qle_bool 0 d); [|discriminate]. injection H as <-.
    cbn. rewrite Est. intuition congruence.
  - (* TickFires *)
    destruct (st_loop s); try discriminate. injection H as <-.
    cbn. rewrite Est. intuition congruence.
  - (* Handoff *)
    destruct (st_main s) eqn:Em; try discriminate.
    destruct (st_loop s); try discriminate. injection H as <-.
    cbn. rewrite Est. intuition congruence.
  - (* main *)
    unfold step_main in H. destruct (st_main s) eqn:Em; try discriminate.
    + injection H as <-. cbn. rewrite Hdone, Est. intuition congruence.
    + destruct (CopyN _ _ _) as [[n [e|]] rest]; injection H as <-;
        cbn; rewrite Est; intuition congruence.
    + rewrite Hdone in H. discriminate.
    + congruence.
  - (* signal handler *)
    unfold step_signal in H. rewrite Hsig, Hsigs in H. discriminate.
  - (* CalculateBandwidth *)
    unfold step_aggregator in H.
    destruct Hagg as [Ea|Ea]; rewrite Ea in H.
    + injection H as <-. cbn. rewrite Est. intuition congruence.
    + rewrite Hdone in H. discriminate.
  - (* loop *)
    unfold step_loop in H. destruct (st_loop s); try discriminate.
    + injection H as <-. cbn. rewrite Est. intuition congruence.
    + injection H as <-. cbn. rewrite Est. intuition congruence.
    + destruct (onTick _ _) as [[r rep]|]; injection H as <-; cbn;
        rewrite ?Est; intuition congruence.
Qed.

Lemma run_uncancelled fin mb (sched : list label) : forall s s',
  uncancelled s -> no_interrupt sched = true ->
  run fin mb s sched = Some s' ->
  uncancelled s' /\
  (st_main s = MWait -> st_main s' = MWait) /\
  (st_agg s = AWait -> st_agg s' = AWait).
Proof.
  induction sched as [|l sched IH]; intros s s' Hs Hni Hrun;
    cbn [run no_interrupt forallb] in *.
  - injection Hrun as <-. auto.
  - apply andb_prop in Hni as [Hl Hni].
    apply negb_true_iff in Hl.
    destruct (step fin mb s l) as [s1|] eqn:E; [|discriminate].
    destruct (step_uncancelled _ _ _ _ _ Hs Hl E) as (Hs1 & Hm1 & Ha1).
    destruct (IH s1 s' Hs1 Hni Hrun) as (Hs' & Hm' & Ha').
    auto.
Qed.

Lemma init_uncancelled (chunks : list N) : uncancelled (init chunks).
Proof. unfold uncancelled, init; cbn. intuition congruence. Qed.

(** C2 on the code: on a source that fails at once the reader stops, and
    from then on, as long as no interrupt arrives, the context is not
    cancelled, [main] stays at line 129, the body of [CalculateBandwidth]
    stays at line 199, and no final summary is printed. *)
Theorem read_error_does_not_cancel (fin : ioerr) (mb : Z)
    (sched : list label) (s : state) :
  no_interrupt sched = true ->
  run fin mb (init []) (reader_fails ++ sched) = Some s ->
  st_main s = MWait /\ st_agg s = AWait /\ st_done s = false /\
  st_summary s = None /\ st_status s <> Exited.
Proof.
  intros Hni Hrun. rewrite run_app in Hrun.
  destruct (run fin mb (init []) reader_fails) as [s0|] eqn:E0;
    [|discriminate].
  assert (H0 : uncancelled s0 /\ st_main s0 = MWait /\ st_agg s0 = AWait).
  { assert (Hr : no_interrupt reader_fails = true) by reflexivity.
    destruct (run_uncancelled _ _ _ _ _ (init_uncancelled []) Hr E0)
      as (Hu & _ & _).
    split; [exact Hu|]. cbn in E0. injection E0 as <-. split; reflexivity. }
  destruct H0 as (Hu & Hm & Ha).
  destruct (run_uncancelled _ _ _ _ _ Hu Hni Hrun) as (Hu' & Hm' & Ha').
  unfold uncancelled in Hu'. intuition.
Qed.

Lemma read_error_does_not_cancel_witness :
  exists s,
    run EOF 1 (init []) (reader_fails ++ [Elapse 1; TickFires; Go GLoop])
      = Some s /\
    st_main s = MWait /\ st_agg s = AWait /\ st_done s = false /\
    st_summary s = None /\ st_status s <> Exited.
Proof.
  eexists. split; [vm_compute; reflexivity|].
  apply (read_error_does_not_cancel EOF 1 [Elapse 1; TickFires; Go GLoop]).
  - reflexivity.
  - vm_compute. reflexivity.
Defined.

(** C9 on the code: a schedule takes the loop to [total += n] and the body
    of [CalculateBandwidth] to [getUnits(total)] at the same time.  Both can
    move, one writes [total] and the other reads it, and the summary that is
    about to be printed depends on which of them moves first. *)
Theorem final_summary_races_with_byte_count (fin : ioerr) (mb : Z) :
  exists s,
    run fin mb (init [409500%N]) interrupt_during_add = Some s /\
    st_loop s = LAddTotal 409500 /\ st_agg s = ASummary /\
    races_on_total s = true /\
    (exists s1 line,
        run fin mb s [Go GLoop; Go GAggregator] = Some s1 /\
        st_agg s1 = APrint line /\
        sum_count line = (409500 # 1024)%Q /\ sum_desc line = "KB"%string) /\
    (exists s2 line,
        run fin mb s [Go GAggregator; Go GLoop] = Some s2 /\
        st_agg s2 = APrint line /\
        sum_count line = 0%Q /\ sum_desc line = "B"%string).
Proof.
  eexists. split; [vm_compute; reflexivity|].
  repeat split.
  - eexists. eexists. split; [vm_compute; reflexivity|].
    repeat split.
  - eexists. eexists. split; [vm_compute; reflexivity|].
    repeat split.
Qed.

(** A source with fewer bytes than one chunk: its only [io.CopyN] fails,
    and the loop is never handed a byte count. *)
Lemma step_starved fin mb (chunks : list N) (s s' : state) (l : label) :
  avail chunks < 409500 ->
  starved chunks s -> step fin mb s l = Some s' -> starved chunks s'.
Proof.
  unfold starved. intros Hav (Hrun & Hloop & Hmain) H.
  unfold step in H. destruct (st_status s) eqn:Est; try discriminate.
  destruct l as [|d| | |[ | | | ]].
  - injection H as <-. cbn. intuition congruence.
  - destruct (Qle_bool 0 d); [|discriminate]. injection H as <-.
    cbn. intuition congruence.
  - destruct (st_loop s); try discriminate. injection H as <-.
    cbn. intuition congruence.
  - destruct (st_main s) eqn:Em; try discriminate.
    exfalso. intuition discriminate.
  - unfold step_main in H. destruct (st_main s) eqn:Em; try discriminate.
    + injection H as <-. cbn. destruct (st_done s); intuition congruence.
    + destruct Hmain as [[_ Hc]|[Hc|Hc]]; try discriminate.
      rewrite Hc in H.
      destruct (CopyN chunks fin (bufSize mb)) as [[n e] rest] eqn:E.
      assert (Hb : 0 < bufSize mb) by reflexivity.
      pose proof (CopyN_spec _ _ _ _ _ _ Hb E) as Hs.
      destruct e as [err|].
      * injection H as <-. cbn. intuition congruence.
      * change (bufSize mb) with 409500 in Hs. lia.
    + destruct (st_done s); [|discriminate]. injection H as <-.
      cbn. intuition congruence.
    + injection H as <-. cbn. intuition congruence.
  - unfold step_signal in H. destruct (st_sig s); try discriminate.
    + destruct (st_sigs s); [|discriminate]. injection H as <-.
      cbn. intuition congruence.
    + injection H as <-. cbn. intuition congruence.
  - unfold step_aggregator in H. destruct (st_agg s); try discriminate.
    + injection H as <-. cbn. intuition congruence.
    + destruct (st_done s); [|discriminate]. injection H as <-.
      cbn. intuition congruence.
    + destruct (finalSummary _ _); injection H as <-; cbn; intuition congruence.
    + injection H as <-. cbn. intuition congruence.
  - unfold step_loop in H. destruct (st_loop s) eqn:El; try discriminate.
    + exfalso. intuition discriminate.
    + exfalso. intuition discriminate.
    + rewrite Hrun in H.
      destruct (onTick_completes (elapsed s) (mkRunState 0 0)) as [rep Hrep];
        [cbn; lia..|].
      rewrite Hrep in H. injection H as <-. cbn. intuition congruence.
Qed.

Lemma run_starved fin mb (chunks : list N) (sched : list label) :
  avail chunks < 409500 ->
  forall s s', starved chunks s -> run fin mb s sched = Some s' ->
               starved chunks s'.
Proof.
  intros Hav. induction sched as [|l sched IH]; intros s s' Hs Hrun;
    cbn [run] in Hrun.
  - injection Hrun as <-. exact Hs.
  - destruct (step fin mb s l) as [s1|] eqn:E; [|discriminate].
    eapply IH; [|exact Hrun]. eapply step_starved; eassumption.
Qed.

Lemma init_starved (chunks : list N) : starved chunks (init chunks).
Proof. unfold starved, init; cbn. intuition. Qed.

(** C5 on the code: on the source of the claim, 1000, 2000 and 500 bytes
    and then end of stream, the single [io.CopyN] copies 3500 bytes and
    reports [io.EOF]; [ReadData] returns the error without sending 3500, so
    nothing is sent at all; only full chunks ever are.  Whatever the
    schedule, [total] is 0 throughout, not 3500. *)
Theorem partial_read_is_dropped (fin : ioerr) (r : Z) :
  CopyN [1000; 2000; 500]%N fin (bufSize r) = (3500, Some fin, []) /\
  (let res := ReadData (fun _ => false) (mkSource [1000; 2000; 500]%N fin) r in
   rd_trace res = [Request 409500] /\ rd_err res = Some fin /\
   sent (rd_trace res) = []) /\
  (forall ctx src,
      Forall (fun n => n = 409500) (sent (rd_trace (ReadData ctx src r)))) /\
  (forall sched s,
      run fin r (init [1000; 2000; 500]%N) sched = Some s ->
      total (st_run s) = 0 /\ total (st_run s) <> 3500).
Proof.
  split; [reflexivity|]. split; [|split].
  - unfold ReadData. cbn [src_chunks src_final].
    rewrite ReadData_loop_eq. cbn. repeat split.
  - intros ctx src. apply sent_chunk_sized, ReadData_loop_trace.
  - intros sched s Hrun.
    assert (Hs : starved [1000; 2000; 500]%N s).
    { eapply (run_starved fin r); [|apply init_starved|exact Hrun].
      cbn. lia. }
    destruct Hs as (Hr & _). rewrite Hr. cbn. split; [reflexivity|lia].
Qed.

Lemma partial_read_is_dropped_witness :
  exists s,
    run EOF 1 (init [1000; 2000; 500]%N)
      [Go GAggregator; Go GMain; Go GMain; Elapse (1 # 2); Interrupt;
       Go GSignal; Go GSignal; Go GAggregator; Go GAggregator]
      = Some s /\
    st_agg s = APrint (mkSummary (1 # 2) 0 "B") /\
    total (st_run s) = 0.
Proof.
  eexists. split; [vm_compute; reflexivity|]. split; [reflexivity|].
  refine (proj1 (proj2 (proj2 (proj2 (partial_read_is_dropped EOF 1)))
                  [Go GAggregator; Go GMain; Go GMain; Elapse (1 # 2);
                   Interrupt; Go GSignal; Go GSignal; Go GAggregator;
                   Go GAggregator] _ _)).
  vm_compute. reflexivity.
Defined.

(** ** Configuration *)

Lemma Action_accepts (mode : Z) (f : flags) (v : vars) :
  Action mode f = (None, v) ->
  v = mkVars (if isStdin mode then Some Stdin else None)
             (if fl_mb f =? 0 then 1 else fl_mb f) /\
  (isStdin mode = false -> (fl_port f = 0 <-> fl_socket f <> ""%string)) /\
  (fl_port f = 0 \/ fl_socket f = ""%string).
Proof.
  unfold Action. intros H.
  destruct (Z.eqb_spec (fl_port f) 0) as [Hp|Hp];
    destruct (String.eqb_spec (fl_socket f) "") as [Hs|Hs];
    destruct (isStdin mode); cbn in H; try discriminate;
    injection H as <-; (split; [reflexivity|]);
    (split; [intros Hf; try discriminate Hf; tauto | tauto]).
Qed.

(** X2: The source is standard input exactly when standard input is not a
    character device, whatever the flags say: a socket or a port that is
    given alone is accepted, and never opened.  The hint 0 becomes 1, any
    other hint is kept, so the hint is never 0 afterwards. *)
Theorem startup_source_is_stdin_or_nil (mode : Z) (f : flags) (v : vars) :
  startup mode f = Proceed v ->
  (v_src v = Some Stdin <-> isStdin mode = true) /\
  (v_src v = None <-> isStdin mode = false) /\
  v_mb v <> 0 /\ (fl_mb f <> 0 -> v_mb v = fl_mb f) /\
  (fl_mb f = 0 -> v_mb v = 1).
Proof.
  unfold startup. destruct (Action mode f) as [[e|] v'] eqn:E; [discriminate|].
  intros H. injection H as <-.
  destruct (Action_accepts _ _ _ E) as (-> & _ & _). cbn [v_src v_mb].
  destruct (isStdin mode); destruct (Z.eqb_spec (fl_mb f) 0);
    repeat split; intros; try congruence; try lia; try discriminate.
Qed.

Lemma startup_source_is_stdin_or_nil_witness :
  (v_src (mkVars None 1) = None <-> isStdin (2 ^ 26 + 2 ^ 21 + 400) = false).
Proof.
  refine (proj1 (proj2 (startup_source_is_stdin_or_nil
                          (2 ^ 26 + 2 ^ 21 + 400) (mkFlags "/tmp/s" 0 0)
                          (mkVars None 1) _))).
  vm_compute. reflexivity.
Defined.

(** X1: The action fails, and [main] exits with status 1, in exactly two
    cases: no port, no socket and a terminal as standard input; or both a
    port and a socket.  A port or a socket together with piped input is
    accepted. *)
Theorem startup_rejects (mode : Z) (f : flags) :
  (startup mode f =
     ExitWith 1 (action_message ErrNoSource) <->
   fl_port f = 0 /\ fl_socket f = ""%string /\ isStdin mode = false) /\
  (startup mode f =
     ExitWith 1 (action_message ErrTwoSources) <->
   fl_port f <> 0 /\ fl_socket f <> ""%string) /\
  (forall code msg, startup mode f = ExitWith code msg -> code = 1) /\
  ((exists v, startup mode f = Proceed v) <->
   ~ (fl_port f = 0 /\ fl_socket f = ""%string /\ isStdin mode = false) /\
   ~ (fl_port f <> 0 /\ fl_socket f <> ""%string)).
Proof.
  unfold startup, Action.
  destruct (Z.eqb_spec (fl_port f) 0) as [Hp|Hp];
    destruct (String.eqb_spec (fl_socket f) "") as [Hs|Hs];
    destruct (isStdin mode); cbn;
    repeat split; intros;
    repeat match goal with
           | H : _ /\ _ |- _ => destruct H
           | H : exists _, _ |- _ => destruct H
           | H : ExitWith _ _ = ExitWith _ _ |- _ => injection H as ? ?
           end;
    try congruence; try discriminate; try tauto; try (eexists; reflexivity);
    try (intros []; intros; congruence);
    try (intros (_ & _ & Hf); discriminate Hf).
Qed.

(** A socket (or a file) named on the command line while standard input
    is a terminal passes the validation, and the reader starts on the nil
    source: the name is never opened. *)
Theorem startup_socket_without_stdin (mode : Z) (f : flags) :
  fl_socket f <> ""%string -> fl_port f = 0 -> isStdin mode = false ->
  startup mode f =
  Proceed (mkVars None (if fl_mb f =? 0 then 1 else fl_mb f)).
Proof.
  intros Hs Hp Hm. unfold startup, Action. rewrite Hp, Hm.
  destruct (String.eqb_spec (fl_socket f) ""); [contradiction|].
  reflexivity.
Qed.

Lemma startup_socket_without_stdin_witness :
  startup (2 ^ 26 + 2 ^ 21 + 400) (mkFlags "/tmp/bw.sock" 0 0) =
  Proceed (mkVars None 1).
Proof.
  apply (startup_socket_without_stdin
           (2 ^ 26 + 2 ^ 21 + 400) (mkFlags "/tmp/bw.sock" 0 0)).
  - discriminate.
  - reflexivity.
  - reflexivity.
Defined.

(** ** Stream reader: cancellation, errors, accounting *)

Lemma CopyN_rest (fin : ioerr) (cs : list N) : forall (n w : Z) rest,
  0 < n -> CopyN cs fin n = (w, None, rest) -> avail rest = avail cs - n.
Proof.
  induction cs as [|k cs IH]; intros n w rest Hn H; simpl in H.
  - destruct (Z.leb_spec n 0); [lia|discriminate].
  - destruct (Z.leb_spec n 0); [lia|].
    destruct (Z.ltb_spec (Z.of_N k) n) as [Hk|Hk].
    + destruct (CopyN cs fin (n - Z.of_N k)) as [[w1 e1] r1] eqn:E.
      injection H as <- -> <-. apply IH in E; [|lia]. cbn [avail]. lia.
    + injection H as <- <-.
      destruct (Z.eqb_spec (Z.of_N k) n); cbn [avail]; [lia|].
      rewrite N2Z.inj_sub, Z2N.id
        by (try apply N2Z.inj_le; rewrite ?Z2N.id; lia).
      lia.
Qed.

Lemma bufSize_pos (r : Z) : 0 < bufSize r.
Proof. reflexivity. Qed.

(** Once [ctx.Done()] is seen closed the loop stops: if the context is
    done at the [j]-th look from iteration [i] on, at most [j] reads are
    requested and at most [j] counts are sent. *)
Lemma ReadData_loop_prompt ctx r fin (j : nat) : forall i cs,
  ctx (i + j)%nat = true ->
  (List.length (requests (rd_trace (ReadData_loop ctx r fin i cs))) <= j)%nat /\
  (List.length (sent (rd_trace (ReadData_loop ctx r fin i cs))) <= j)%nat.
Proof.
  induction j as [|j IH]; intros i cs Hc; rewrite ReadData_loop_eq.
  - rewrite Nat.add_0_r in Hc. rewrite Hc. cbn. lia.
  - destruct (ctx i); [cbn; lia|].
    destruct (CopyN cs fin (bufSize r)) as [[n [e|]] rest].
    + cbn. lia.
    + cbn [rd_cons rd_trace app requests sent List.length].
      specialize (IH (S i) rest).
      rewrite Nat.add_succ_r in Hc. specialize (IH Hc). lia.
Qed.

(** X3: Cancellation is prompt: when the context is done at the [k]-th look,
    [ReadData] has issued at most [k] reads; done at the first look, it
    reads nothing, leaves the source as it is and returns nil. *)
Theorem ReadData_stops_on_cancel
    (ctx : nat -> bool) (src : source) (r : Z) (k : nat) :
  ctx k = true ->
  (List.length (requests (rd_trace (ReadData ctx src r))) <= k)%nat /\
  (List.length (sent (rd_trace (ReadData ctx src r))) <= k)%nat /\
  (k = O -> ReadData ctx src r = mkRd [] None (src_chunks src)).
Proof.
  intros Hc. unfold ReadData.
  destruct (ReadData_loop_prompt ctx r (src_final src) k 0 (src_chunks src) Hc)
    as [H1 H2].
  repeat split; try assumption.
  intros ->. rewrite ReadData_loop_eq, Hc. reflexivity.
Qed.

Lemma ReadData_stops_on_cancel_witness :
  (List.length (requests (rd_trace
     (ReadData (fun i => Nat.leb 2 i) (mkSource [2000000%N] EOF) 1))) <= 2)%nat.
Proof.
  apply (ReadData_stops_on_cancel
           (fun i => Nat.leb 2 i) (mkSource [2000000%N] EOF) 1 2).
  reflexivity.
Defined.




(** ** Bandwidth aggregator: composition, window, panics *)

(** Handling a sequence of events is handling its first part and then,
    from the state that leaves, the rest; the reports come in order. *)
Lemma aggregate_app (evs1 evs2 : list event) : forall s0,
  aggregate (evs1 ++ evs2) s0 =
  match aggregate evs1 s0 with
  | None => None
  | Some (s1, reps1) =>
      match aggregate evs2 s1 with
      | None => None
      | Some (s2, reps2) => Some (s2, reps1 ++ reps2)
      end
  end.
Proof.
  induction evs1 as [|[n|e] evs1 IH]; intros s0; cbn [app aggregate].
  - destruct (aggregate evs2 s0) as [[s2 reps2]|]; reflexivity.
  - apply IH.
  - destruct (onTick e s0) as [[s' rep]|]; [|reflexivity].
    rewrite IH. destruct (aggregate evs1 s') as [[s1 reps1]|]; [|reflexivity].
    destruct (aggregate evs2 s1) as [[s2 reps2]|]; reflexivity.
Qed.

Lemma byteCounts_app (evs1 evs2 : list event) :
  byteCounts (evs1 ++ evs2) = byteCounts evs1 ++ byteCounts evs2.
Proof.
  induction evs1 as [|[n|e] evs1 IH]; cbn [app byteCounts];
    rewrite ?IH; reflexivity.
Qed.

Lemma sum_app (l1 l2 : list Z) : sum (l1 ++ l2) = sum l1 + sum l2.
Proof.
  induction l1 as [|x l1 IH]; cbn [app sum fold_right]; [reflexivity|].
  fold (sum (l1 ++ l2)). fold (sum l1). lia.
Qed.

(** X5: [total] never decreases: whatever the aggregator has counted after a
    first part of the events, it has counted at least that much after the
    rest, as long as the counter stays within int64. *)
Theorem total_monotone (evs1 evs2 : list event) (s0 s : RunState) reps :
  Forall (fun n => 0 <= n) (byteCounts (evs1 ++ evs2)) ->
  0 <= total s0 ->
  total s0 + sum (byteCounts (evs1 ++ evs2)) <= Int64.max_int ->
  aggregate (evs1 ++ evs2) s0 = Some (s, reps) ->
  exists s1 reps1,
    aggregate evs1 s0 = Some (s1, reps1) /\
    total s0 <= total s1 <= total s.
Proof.
  intros Hnn H0 Hmax Hagg.
  pose proof (aggregate_total _ _ _ _ Hnn H0 Hmax Hagg) as Ht.
  rewrite aggregate_app in Hagg.
  destruct (aggregate evs1 s0) as [[s1 reps1]|] eqn:E1; [|discriminate].
  exists s1, reps1. split; [reflexivity|].
  rewrite byteCounts_app in *. rewrite sum_app in *.
  apply Forall_app in Hnn as [Hn1 Hn2].
  pose proof (sum_nonneg _ Hn1). pose proof (sum_nonneg _ Hn2).
  rewrite (aggregate_total _ _ _ _ Hn1 H0 ltac:(lia) E1). lia.
Qed.

Lemma total_monotone_witness :
  exists s1 reps1,
    aggregate [ByteCount 409500; Tick 1] (mkRunState 0 0) = Some (s1, reps1) /\
    total (mkRunState 0 0) <= total s1 <= total (mkRunState 819000 409500).
Proof.
  refine (total_monotone [ByteCount 409500; Tick 1] [ByteCount 409500]
            (mkRunState 0 0) (mkRunState 819000 409500) _ _ _ _ _).
  - repeat constructor; lia.
  - simpl. lia.
  - unfold Int64.max_int. simpl. lia.
  - vm_compute. reflexivity.
Defined.

Lemma aggregate_window_counts (ns : list Z) : forall s0,
  Forall (fun n => 0 <= n) ns ->
  0 <= prevSecond s0 ->
  prevSecond s0 + sum ns <= Int64.max_int ->
  exists s, aggregate (map ByteCount ns) s0 = Some (s, []) /\
            prevSecond s = prevSecond s0 + sum ns.
Proof.
  induction ns as [|n ns IH]; intros s0 Hnn H0 Hmax;
    cbn [map aggregate sum fold_right] in *.
  - eexists. split; [reflexivity|lia].
  - fold (sum ns) in *. inversion Hnn as [|? ? Hn Hns]; subst.
    pose proof (sum_nonneg _ Hns).
    destruct (IH (onByteCount n s0) Hns) as (s & Hs & Hp);
      cbn [onByteCount prevSecond];
      rewrite ?Int64_add_exact by lia; try lia.
    exists s. split; [exact Hs|].
    rewrite Hp. cbn [onByteCount prevSecond].
    rewrite Int64_add_exact by lia. lia.
Qed.

(** X6: After a tick, [prevSecond] is the sum of exactly the byte counts that
    have come since, whatever came before the tick. *)
Theorem prevSecond_is_window
    (evs : list event) (e : Q) (ns : list Z) (s0 s : RunState) reps :
  Forall (fun n => 0 <= n) ns ->
  sum ns <= Int64.max_int ->
  aggregate (evs ++ Tick e :: map ByteCount ns) s0 = Some (s, reps) ->
  prevSecond s = sum ns.
Proof.
  intros Hnn Hmax Hagg. rewrite aggregate_app in Hagg.
  destruct (aggregate evs s0) as [[s1 reps1]|]; [|discriminate].
  cbn [aggregate] in Hagg.
  destruct (onTick e s1) as [[s2 rep]|] eqn:Et; [|discriminate].
  unfold onTick in Et.
  destruct (getUnits (prevSecond s1)); [|discriminate].
  destruct (getUnits (total s1)); [|discriminate].
  injection Et as <- _.
  destruct (aggregate_window_counts ns (mkRunState (total s1) 0) Hnn)
    as (s3 & Hs3 & Hp); cbn [prevSecond]; try lia.
  rewrite Hs3 in Hagg. injection Hagg as <- _. rewrite Hp. cbn. lia.
Qed.

Lemma prevSecond_is_window_witness :
  prevSecond (mkRunState 1228500 819000) = sum [409500; 409500].
Proof.
  refine (prevSecond_is_window [ByteCount 409500] 1 [409500; 409500]
            (mkRunState 0 0) (mkRunState 1228500 819000) _ _ _ _).
  - repeat constructor; lia.
  - unfold Int64.max_int. simpl. lia.
  - vm_compute. reflexivity.
Defined.

Lemma getUnits_None_iff (c : Z) :
  c <= Int64.max_int -> (getUnits c = None <-> 2 ^ 60 - 64 <= c).
Proof.
  intros Hmax. unfold Int64.max_int in Hmax. split.
  - intros Hn. destruct (Z_lt_ge_dec c (2 ^ 60 - 64)) as [Hlt|Hge]; [|lia].
    destruct (getUnits_some c Hlt) as [u Hu]. congruence.
  - intros Hge. apply getUnits_panics. apply round53_above_PB. lia.
Qed.

(** X7: A tick panics exactly when one of the two counters has reached
    2^60 - 64; the final summary, exactly when [total] has. *)
Theorem report_panics_iff (elapsed : Q) (s : RunState) :
  prevSecond s <= Int64.max_int -> total s <= Int64.max_int ->
  (onTick elapsed s = None <->
   2 ^ 60 - 64 <= prevSecond s \/ 2 ^ 60 - 64 <= total s) /\
  (finalSummary elapsed s = None <-> 2 ^ 60 - 64 <= total s).
Proof.
  intros Hp Ht.
  pose proof (getUnits_None_iff _ Hp) as Ip.
  pose proof (getUnits_None_iff _ Ht) as It.
  unfold onTick, finalSummary.
  destruct (getUnits (prevSecond s)) as [u|];
    destruct (getUnits (total s)) as [v|]; split; split; intros H;
    try reflexivity; try discriminate; try tauto;
    try (destruct H as [H|H]; [apply Ip in H|apply It in H]; discriminate);
    try (apply It in H; discriminate);
    try (right; apply It; reflexivity);
    try (left; apply Ip; reflexivity);
    try (apply It; reflexivity).
Qed.

Lemma report_panics_iff_witness :
  onTick 1 (mkRunState (2 ^ 60) 0) = None /\
  finalSummary 1 (mkRunState (2 ^ 60) 0) = None.
Proof.
  pose proof (report_panics_iff 1 (mkRunState (2 ^ 60) 0)) as H.
  cbn [prevSecond total] in H. unfold Int64.max_int in H.
  destruct (H ltac:(lia) ltac:(lia)) as [H1 H2].
  split; [apply H1; right; lia|apply H2; lia].
Defined.

(** ** Unit scaler: the unit chosen *)

Lemma round53_big_band (c : Z) :
  2 ^ 53 <= c < 2 ^ 60 - 64 ->
  2 ^ 50 <= Float64.round53 c < 2 ^ 60 /\ Z.log2 c / 10 = 5.
Proof.
  intros Hc. split; [split|].
  - destruct (round53_big c ltac:(lia)) as (q' & -> & Hsh & _ & Hq & _).
    assert (Z.sgn c = 1) as -> by lia.
    assert (2 ^ 1 <= 2 ^ (Z.log2 (Z.abs c) - 52))
      by (apply Z.pow_le_mono_r; lia).
    change (2 ^ 1) with 2 in *. nia.
  - apply round53_below_PB. lia.
  - assert (53 <= Z.log2 c).
    { change 53 with (Z.log2 (2 ^ 53)). apply Z.log2_le_mono. lia. }
    assert (Z.log2 c < 60) by (apply Z.log2_lt_pow2; lia).
    assert (5 <= Z.log2 c / 10) by (apply Z.div_le_lower_bound; lia).
    assert (Z.log2 c / 10 < 6) by (apply Z.div_lt_upper_bound; lia).
    lia.
Qed.

(** X8: The unit is the largest one that leaves a value of at least 1: a
    positive count below 2^60 - 64 gets the label of index
    [log2 c / 10], that is [k] with 1024^k <= c < 1024^(k+1), and its value
    lies in [1, 1024). *)
Theorem getUnits_unit_is_canonical (c : Z) :
  0 < c < 2 ^ 60 - 64 ->
  exists u k,
    getUnits c = Some u /\ label_at k (desc u) /\
    Z.of_nat k = Z.log2 c / 10 /\
    nextStep ^ Z.of_nat k <= c < nextStep ^ Z.of_nat (S k) /\
    (1 <= count u)%Q /\ (count u < inject_Z nextStep)%Q.
Proof.
  intros Hc.
  destruct (band_of c ltac:(lia)) as (k & Hlo & Hhi & Hk).
  assert (Hlo' : nextStep ^ Z.of_nat k <= c).
  { destruct k as [|k]; [simpl; lia|]. apply Hlo. discriminate. }
  assert (Hk5 : (k <= 5)%nat).
  { assert (Z.log2 c < 60) by (apply Z.log2_lt_pow2; lia).
    assert (Z.log2 c / 10 < 6) by (apply Z.div_lt_upper_bound; lia).
    lia. }
  destruct (descs_defined k Hk5) as [d Hd].
  assert (Hband : nextStep ^ Z.of_nat k <= Float64.round53 c
                  < nextStep ^ Z.of_nat (S k)).
  { destruct (Z_lt_ge_dec c (2 ^ 53)) as [Hs|Hb].
    - rewrite round53_exact by lia. lia.
    - destruct (round53_big_band c ltac:(lia)) as [HR H5].
      assert (k = 5%nat) as -> by lia.
      change (nextStep ^ Z.of_nat 5) with (2 ^ 50).
      change (nextStep ^ Z.of_nat 6) with (2 ^ 60). exact HR. }
  exists (mkUnit (shrink k (Float64.of_int64 c)) d), k. cbn [count desc].
  repeat split; try assumption; try lia.
  - rewrite (getUnits_band c k); [rewrite Hd; reflexivity| |];
      intros; lia.
  - apply shrink_lower. unfold Float64.of_int64. rewrite <- Zle_Qle. lia.
  - apply shrink_upper. unfold Float64.of_int64. rewrite <- Zlt_Qlt. lia.
Qed.

Lemma getUnits_unit_is_canonical_witness :
  exists u k,
    getUnits 409500 = Some u /\ label_at k (desc u) /\
    Z.of_nat k = Z.log2 409500 / 10 /\
    nextStep ^ Z.of_nat k <= 409500 < nextStep ^ Z.of_nat (S k) /\
    (1 <= count u)%Q /\ (count u < inject_Z nextStep)%Q.
Proof.
  apply (getUnits_unit_is_canonical 409500). lia.
Defined.

(** X9: Multiplying a count by 1024 moves it one unit up and leaves the value
    as it is, as long as the product converts exactly (below 2^53). *)
Theorem getUnits_times_nextStep (c : Z) :
  0 < c -> nextStep * c < 2 ^ 53 ->
  exists u u' k,
    getUnits c = Some u /\ getUnits (nextStep * c) = Some u' /\
    label_at k (desc u) /\ label_at (S k) (desc u') /\
    (count u' == count u)%Q.
Proof.
  intros Hc Hmax. unfold nextStep in Hmax.
  destruct (band_of c ltac:(lia)) as (k & Hlo & Hhi & Hk).
  assert (Hlo' : nextStep ^ Z.of_nat k <= c).
  { destruct k as [|k]; [simpl; lia|]. apply Hlo. discriminate. }
  assert (Hk4 : (k <= 4)%nat).
  { assert (Z.log2 c < 43) by (apply Z.log2_lt_pow2; lia).
    assert (Z.log2 c / 10 < 5) by (apply Z.div_lt_upper_bound; lia).
    lia. }
  destruct (descs_defined k ltac:(lia)) as [d Hd].
  destruct (descs_defined (S k) ltac:(lia)) as [d' Hd'].
  exists (mkUnit (shrink k (Float64.of_int64 c)) d),
         (mkUnit (shrink (S k) (Float64.of_int64 (nextStep * c))) d'), k.
  cbn [count desc].
  assert (E : Float64.round53 c = c) by (apply round53_exact; lia).
  assert (E' : Float64.round53 (nextStep * c) = nextStep * c)
    by (apply round53_exact; unfold nextStep; lia).
  pose proof (pow_nextStep_succ k) as Hs1.
  pose proof (pow_nextStep_succ (S k)) as Hs2.
  pose proof (pow_nextStep_pos k) as Hpos.
  repeat split; try assumption.
  - rewrite (getUnits_band c k); [rewrite Hd; reflexivity| |];
      rewrite E; intros; lia.
  - rewrite (getUnits_band (nextStep * c) (S k));
      [rewrite Hd'; reflexivity| |]; rewrite E'; intros;
      rewrite ?Hs2, Hs1; unfold nextStep in *; nia.
  - pose proof (shrink_scale (S k) (Float64.of_int64 (nextStep * c))) as H1.
    pose proof (shrink_scale k (Float64.of_int64 c)) as H2.
    unfold Float64.of_int64 in *. rewrite E, E' in *.
    apply (Qmult_inj_r _ _ (inject_Z (nextStep ^ Z.of_nat (S k)))).
    + intros H0. pose proof (pow_nextStep_pos (S k)) as Hp.
      apply (Qlt_irrefl 0). rewrite <- H0 at 2.
      change 0%Q with (inject_Z 0). rewrite <- Zlt_Qlt. exact Hp.
    + rewrite H1. rewrite Hs1, !inject_Z_mult, Qmult_assoc, H2.
      apply Qmult_comm.
Qed.

Lemma getUnits_times_nextStep_witness :
  exists u u' k,
    getUnits 3500 = Some u /\ getUnits (nextStep * 3500) = Some u' /\
    label_at k (desc u) /\ label_at (S k) (desc u') /\
    (count u' == count u)%Q.
Proof.
  apply (getUnits_times_nextStep 3500); unfold nextStep; lia.
Defined.

(** ** The goroutines of [main]: accounting *)

Ltac state_simpl :=
  cbn [st_status st_main st_sig st_agg st_loop st_chunks st_sigs st_done
       st_run st_start st_clock st_reports st_summary
       set_status set_main set_sig set_agg set_loop set_chunks set_sigs
       set_done set_run set_start set_clock set_reports set_summary
       total prevSecond reading avail] in *.

Ltac at_pcs :=
  repeat match goal with
         | E : st_main ?s = _ |- context [st_main ?s] => rewrite E
         | E : st_loop ?s = _ |- context [st_loop ?s] => rewrite E
         | E : st_agg ?s = _ |- context [st_agg ?s] => rewrite E
         end.

Ltac accounted_goals :=
  at_pcs; state_simpl;
  repeat lazymatch goal with |- _ /\ _ => split end;
  intros;
  repeat match goal with
         | Hi : ?A -> _, Ha : ?A |- _ => specialize (Hi Ha)
         | Hi : ?x = ?x -> _ |- _ => specialize (Hi eq_refl)
         | Hc : _ /\ _ |- _ => destruct Hc
         end;
  try first [assumption | discriminate | congruence | lia | solve [auto]].

Lemma step_accounted fin mb (chunks0 : list N) (s s' : state) (l : label) :
  avail chunks0 <= Int64.max_int ->
  accounted chunks0 s -> step fin mb s l = Some s' -> accounted chunks0 s'.
Proof.
  intros Hmax Hacc H. unfold Int64.max_int in Hmax. unfold step in H.
  destruct (st_status s) eqn:Est; try discriminate.
  unfold accounted, in_flight, sending, unadded, in_window, consumed in *.
  destruct Hacc
    as (Hsend & Hwin & Hinit & HP & HPT & Hmod & Hle & Heq & Hav & Hpanic).
  pose proof (avail_nonneg (st_chunks s)) as Hnn.
  destruct l as [|d| | |[ | | | ]].
  - (* Interrupt *)
    injection H as <-. state_simpl. rewrite Est. accounted_goals.
  - (* Elapse *)
    destruct (Qle_bool 0 d); [|discriminate]. injection H as <-.
    state_simpl. rewrite Est. accounted_goals.
  - (* TickFires *)
    destruct (st_loop s) eqn:El; try discriminate. injection H as <-.
    state_simpl. rewrite Est.
    accounted_goals.
  - (* Handoff *)
    destruct (st_main s) eqn:Em; try discriminate.
    destruct (st_loop s) eqn:El; try discriminate. injection H as <-.
    state_simpl. rewrite Est.
    accounted_goals.
  - (* main *)
    unfold step_main in H. destruct (st_main s) eqn:Em; try discriminate.
    + injection H as <-. state_simpl. rewrite Est.
      destruct (st_done s); state_simpl;
        accounted_goals.
    + destruct (CopyN (st_chunks s) fin (bufSize mb)) as [[n e] rest] eqn:E.
      pose proof (CopyN_spec _ _ _ _ _ _ (bufSize_pos mb) E) as Hs.
      change (bufSize mb) with 409500 in *.
      destruct e as [err|]; injection H as <-; state_simpl; rewrite Est.
      * destruct Hs as (_ & _ & _ & ->). state_simpl.
        accounted_goals.
      * pose proof (CopyN_rest _ _ _ _ _ (bufSize_pos mb) E) as Hr.
        change (bufSize mb) with 409500 in Hr. destruct Hs as [-> Hn].
        specialize (Heq eq_refl).
        accounted_goals.
    + destruct (st_done s); [|discriminate]. injection H as <-.
      state_simpl. rewrite Est.
      accounted_goals.
    + injection H as <-. state_simpl.
      accounted_goals.
  - (* signal handler *)
    unfold step_signal in H. destruct (st_sig s); try discriminate.
    + destruct (st_sigs s); [|discriminate]. injection H as <-.
      state_simpl. rewrite Est. accounted_goals.
    + injection H as <-. state_simpl. rewrite Est. accounted_goals.
  - (* CalculateBandwidth *)
    unfold step_aggregator in H. destruct (st_agg s) eqn:Ea; try discriminate.
    + destruct (Hinit eq_refl) as (Ht & Hp & Hl). injection H as <-.
      rewrite Hl in *. state_simpl. rewrite Est.
      accounted_goals.
    + destruct (st_done s); [|discriminate]. injection H as <-.
      state_simpl. rewrite Est.
      accounted_goals.
    + unfold finalSummary in H.
      destruct (getUnits (total (st_run s))) as [u|] eqn:Eu;
        injection H as <-; state_simpl; rewrite ?Est;
        accounted_goals.
      assert (Hsafe : total (st_run s) < 2 ^ 60 - 64)
        by (destruct (st_main s), (st_loop s); lia).
      destruct (getUnits_some _ Hsafe) as [u Hu]. congruence.
    + injection H as <-. state_simpl. rewrite Est.
      accounted_goals.
  - (* loop *)
    unfold step_loop in H. destruct (st_loop s) eqn:El; try discriminate.
    + injection H as <-. state_simpl. rewrite Est.
      assert (Hm : 0 <= sending s) by (unfold sending; lia).
      unfold sending in Hm.
      rewrite Int64_add_exact
        by (unfold Int64.max_int; destruct (st_main s); lia).
      accounted_goals.
      destruct Hwin as [Hw|Hw]; rewrite Hw in *;
        [rewrite Z.add_0_r; exact Hmod|].
      rewrite <- Zplus_mod_idemp_l, Hmod. reflexivity.
    + injection H as <-. state_simpl. rewrite Est.
      assert (Hm : 0 <= sending s) by (unfold sending; lia).
      unfold sending in Hm.
      rewrite Int64_add_exact
        by (unfold Int64.max_int; destruct (st_main s); lia).
      accounted_goals.
    + assert (Hm : 0 <= sending s) by (unfold sending; lia).
      unfold sending in Hm.
      destruct (onTick (elapsed s) (st_run s)) as [[r rep]|] eqn:Et.
      * unfold onTick in Et.
        destruct (getUnits (prevSecond (st_run s))); [|discriminate].
        destruct (getUnits (total (st_run s))); [|discriminate].
        injection Et as <- _. injection H as <-. state_simpl. rewrite Est.
        accounted_goals.
      * injection H as <-. state_simpl.
        accounted_goals.
        assert (Hsafe : total (st_run s) < 2 ^ 60 - 64)
          by (destruct (st_main s); lia).
        destruct (onTick_completes (elapsed s) (st_run s)) as [rep Hr];
          [lia|exact Hsafe|congruence].
Qed.

Lemma run_accounted fin mb (chunks0 : list N) (sched : list label) :
  avail chunks0 <= Int64.max_int ->
  forall s s', accounted chunks0 s -> run fin mb s sched = Some s' ->
               accounted chunks0 s'.
Proof.
  intros Hmax. induction sched as [|l sched IH]; intros s s' Hs Hrun;
    cbn [run] in Hrun.
  - injection Hrun as <-. exact Hs.
  - destruct (step fin mb s l) as [s1|] eqn:E; [|discriminate].
    eapply IH; [|exact Hrun]. eapply step_accounted; eassumption.
Qed.

Lemma init_accounted (chunks0 : list N) : accounted chunks0 (init chunks0).
Proof.
  unfold accounted, init, in_flight, sending, unadded, in_window, consumed.
  cbn. repeat split; intros; try lia; try discriminate; auto.
Qed.



(** X11: On a source of fewer than 2^60 - 64 bytes no schedule makes the
    program panic: neither a tick nor the final summary ever scales a
    counter past the last label. *)
Theorem never_panics_below_PB
    (fin : ioerr) (mb : Z) (chunks0 : list N) (sched : list label) (s : state) :
  avail chunks0 < 2 ^ 60 - 64 ->
  run fin mb (init chunks0) sched = Some s ->
  st_status s <> Panicked.
Proof.
  intros Hlt Hrun.
  assert (Hmax : avail chunks0 <= Int64.max_int)
    by (unfold Int64.max_int; lia).
  pose proof (run_accounted fin mb chunks0 sched Hmax _ _
                (init_accounted chunks0) Hrun) as Hacc.
  unfold accounted in Hacc. tauto.
Qed.

Lemma never_panics_below_PB_witness :
  exists s,
    run EOF 1 (init [409500%N])
      [Go GAggregator; Go GMain; Go GMain; Handoff; Go GLoop; Go GLoop;
       Elapse 1; TickFires; Go GLoop] = Some s /\
    st_status s <> Panicked.
Proof.
  eexists. split; [vm_compute; reflexivity|].
  refine (never_panics_below_PB EOF 1 [409500%N]
    [Go GAggregator; Go GMain; Go GMain; Handoff; Go GLoop; Go GLoop;
     Elapse 1; TickFires; Go GLoop] _ _ _).
  - cbn. lia.
  - vm_compute. reflexivity.
Defined.



(** ** The goroutines of [main]: reads after cancellation *)




